(** * net::MemoryPool (src/net/src/memory_pool.h)

    A shallow embedding of the 64-slot page pool and of the part of the C++
    abstract machine its member functions touch: the raw allocator
    ([std::malloc], [std::aligned_alloc], [std::free]), the header bytes the
    pool writes in front of every payload, and the objects it constructs by
    placement new.  Pointers and machine integers are [Z]; every member
    function is a computation in a state-and-fault monad over a [World]. *)

From Stdlib Require Import ZArith Lia List.
From stdpp Require Import gmap list.

Local Open Scope Z_scope.

(** ** C++ types and objects *)

(** What the pool needs to know of a template argument [T]: [sizeof(T)],
    [alignof(T)], and the object representation its constructor builds
    from the forwarded arguments. *)
Record CxxType := {
  sizeof : Z;
  alignof : Z;
  ctor : list Z -> list Z
}.

Record Object := {
  obj_type : CxxType;
  obj_repr : list Z
}.

(** ** Machine integers *)

Definition to_size_t (x : Z) : Z := x mod 2 ^ 64.
Definition to_uint8 (x : Z) : Z := x mod 2 ^ 8.
(** [~x] on a [uint64_t]. *)
Definition not64 (x : Z) : Z := Z.lxor x (Z.ones 64).

(** ** The world: the pool object, the raw heap, and a trace of calls *)

Inductive Event :=
| EvMalloc (size ret : Z)
| EvAlignedAlloc (align size ret : Z)
| EvFree (p : Z)
| EvConstruct (p : Z) (T : CxxType) (args : list Z)
| EvDestruct (p : Z) (T : CxxType).

(** Data members of [MemoryPool], under their source names. *)
Record MemoryPool := {
  pageSize_ : Z;        (* const int64_t *)
  bits_ : Z;            (* std::atomic<uint64_t> *)
  pages_ : list Z       (* std::array<void *, 64>; 0 is nullptr *)
}.

Definition pageOffset_ : Z := 1.     (* sizeof(uint8_t) *)
Definition extendFlag_ : Z := 255.   (* 0xFF *)

(** [blocks] maps the base address of every live raw block to its size;
    [bytes] holds the bytes stored through [uint8_t *] writes (the pool only
    ever stores header bytes, each at the base of a block); [objects] maps an
    address to the object whose lifetime has begun there and not ended;
    [trace] lists the allocator, constructor and destructor calls, newest
    first. *)
Record World := {
  this : MemoryPool;
  blocks : gmap Z Z;
  bytes : gmap Z Z;
  objects : gmap Z Object;
  trace : list Event
}.

Definition with_bits (b : Z) (w : World) : World :=
  {| this := {| pageSize_ := pageSize_ (this w); bits_ := b; pages_ := pages_ (this w) |};
     blocks := blocks w; bytes := bytes w; objects := objects w; trace := trace w |}.

Definition with_pages (ps : list Z) (w : World) : World :=
  {| this := {| pageSize_ := pageSize_ (this w); bits_ := bits_ (this w); pages_ := ps |};
     blocks := blocks w; bytes := bytes w; objects := objects w; trace := trace w |}.

Definition with_blocks (bl : gmap Z Z) (w : World) : World :=
  {| this := this w; blocks := bl; bytes := bytes w; objects := objects w; trace := trace w |}.

Definition with_bytes (m : gmap Z Z) (w : World) : World :=
  {| this := this w; blocks := blocks w; bytes := m; objects := objects w; trace := trace w |}.

Definition with_objects (o : gmap Z Object) (w : World) : World :=
  {| this := this w; blocks := blocks w; bytes := bytes w; objects := o; trace := trace w |}.

Definition log (e : Event) (w : World) : World :=
  {| this := this w; blocks := blocks w; bytes := bytes w; objects := objects w;
     trace := e :: trace w |}.

(** ** The monad: state, plus the undefined behaviours the code can reach *)

Inductive Fault :=
| NullDereference     (* a store or load through a null pointer *)
| InvalidRead         (* a load of a byte that was never stored, or was freed *)
| InvalidFree         (* std::free of an address that is not a live block *)
| DeadObject          (* a destructor call where no object lives *)
| BadShift            (* 1ull << n with n >= 64 *)
| OutOfBounds         (* pages_[i] with i outside 0..63 *)
| Livelock.           (* the scan did not finish within its step budget *)

Inductive Outcome (A : Type) :=
| Done (a : A)
| Crash (f : Fault).
Arguments Done {A} a.
Arguments Crash {A} f.

Definition M (A : Type) : Type := World -> Outcome A * World.

Definition ret {A} (a : A) : M A := fun w => (Done a, w).
Definition crash {A} (f : Fault) : M A := fun w => (Crash f, w).
Definition bind {A B} (m : M A) (k : A -> M B) : M B :=
  fun w => match m w with
           | (Done a, w') => k a w'
           | (Crash f, w') => (Crash f, w')
           end.

Notation "'let*' x ':=' m 'in' k" := (bind m (fun x => k))
  (at level 10, x name, m at level 100, k at level 200).
Notation "'let*' ' p ':=' m 'in' k" := (bind m (fun x => match x with p => k end))
  (at level 10, p pattern, m at level 100, k at level 200).
Notation "m ';;' k" := (bind m (fun _ => k))
  (at level 100, k at level 200, right associativity).

Definition get_pageSize : M Z := fun w => (Done (pageSize_ (this w)), w).

(** ** The raw allocator

    The allocator lives outside the repository.  The address it answers
    with is an argument ([raw], 0 for failure); a successful call adds the
    block, [std::free] removes it and forgets the byte stored at its base. *)

Definition malloc (size raw : Z) : M Z := fun w =>
  (Done raw,
   log (EvMalloc size raw)
       (if raw =? 0 then w else with_blocks (<[raw := size]> (blocks w)) w)).

Definition aligned_alloc (align size raw : Z) : M Z := fun w =>
  (Done raw,
   log (EvAlignedAlloc align size raw)
       (if raw =? 0 then w else with_blocks (<[raw := size]> (blocks w)) w)).

Definition free (p : Z) : M unit := fun w =>
  match blocks w !! p with
  | Some _ =>
      (Done tt,
       log (EvFree p) (with_bytes (delete p (bytes w)) (with_blocks (delete p (blocks w)) w)))
  | None => (Crash InvalidFree, log (EvFree p) w)
  end.

(** ** Byte stores and loads, placement new, destructor calls *)

Definition store8 (a v : Z) : M unit := fun w =>
  if a =? 0 then (Crash NullDereference, w)
  else (Done tt, with_bytes (<[a := v]> (bytes w)) w).

Definition load8 (a : Z) : M Z := fun w =>
  if a =? 0 then (Crash NullDereference, w)
  else match bytes w !! a with
       | Some v => (Done v, w)
       | None => (Crash InvalidRead, w)
       end.

(** [new (p) T(args...)] *)
Definition placement_new (p : Z) (T : CxxType) (args : list Z) : M Z := fun w =>
  (Done p,
   log (EvConstruct p T args)
       (with_objects (<[p := {| obj_type := T; obj_repr := ctor T args |}]> (objects w)) w)).

(** [ptr->~T()] *)
Definition destroy (p : Z) (T : CxxType) : M unit := fun w =>
  match objects w !! p with
  | Some _ => (Done tt, log (EvDestruct p T) (with_objects (delete p (objects w)) w))
  | None => (Crash DeadObject, w)
  end.

(** ** Atomic operations on [bits_]

    Other threads may change [bits_] between two atomic operations of this
    thread.  An operation is handed what happened since the previous one:
    [None] (nothing) or [Some v] ([bits_] now holds [v]). *)

Definition interfere (e : option Z) : M unit := fun w =>
  match e with
  | None => (Done tt, w)
  | Some v => (Done tt, with_bits (to_size_t v) w)
  end.

Definition next_env (env : list (option Z)) : option Z * list (option Z) :=
  match env with
  | [] => (None, [])
  | e :: env' => (e, env')
  end.

(** [bits_.load()] *)
Definition bits_load (e : option Z) : M Z :=
  interfere e ;; fun w => (Done (bits_ (this w)), w).

(** [bits_.compare_exchange_strong(expected, desired)]: the result, and
    the value left in [expected]. *)
Definition bits_compare_exchange_strong (e : option Z) (expected desired : Z) : M (bool * Z) :=
  interfere e ;;
  fun w => if bits_ (this w) =? expected
           then (Done (true, expected), with_bits desired w)
           else (Done (false, bits_ (this w)), w).

(** [bits_.fetch_and(mask)] *)
Definition bits_fetch_and (mask : Z) : M Z := fun w =>
  (Done (bits_ (this w)), with_bits (Z.land (bits_ (this w)) mask) w).

(** [pages_[i]] and [pages_[i] = p] *)
Definition page_at (i : Z) : M Z := fun w =>
  if (0 <=? i) && (i <? 64) then
    match pages_ (this w) !! Z.to_nat i with
    | Some p => (Done p, w)
    | None => (Crash OutOfBounds, w)
    end
  else (Crash OutOfBounds, w).

Definition set_page (i p : Z) : M unit := fun w =>
  if (0 <=? i) && (i <? 64) && (Z.to_nat i <? length (pages_ (this w)))%nat then
    (Done tt, with_pages (<[Z.to_nat i := p]> (pages_ (this w))) w)
  else (Crash OutOfBounds, w).

(** ** Member functions *)

(** [MemoryPool(int64_t pageSize)] and the delegating [MemoryPool()]. *)
Definition MemoryPool_new (pageSize : Z) : MemoryPool :=
  {| pageSize_ := pageSize; bits_ := 0; pages_ := replicate 64 0 |}.

Definition MemoryPool_default : MemoryPool := MemoryPool_new 512.

(** A world holding a freshly constructed pool and nothing else. *)
Definition fresh_world (pageSize : Z) : World :=
  {| this := MemoryPool_new pageSize; blocks := ∅; bytes := ∅; objects := ∅; trace := [] |}.

(** [AllocateExtend<T>(args...)] *)
Definition AllocateExtend (T : CxxType) (args : list Z) (raw : Z) : M Z :=
  let* newPage := aligned_alloc (alignof T) (to_size_t (sizeof T + pageOffset_)) raw in
  let page := newPage in
  store8 page extendFlag_ ;;
  placement_new (page + 1) T args.

(** Lines 62-68 of [Allocate]: what runs once the compare-exchange on bit
    [i] has succeeded. *)
Definition Allocate_claimed (T : CxxType) (args : list Z) (raw : Z) (i : Z) : M Z :=
  let* p := page_at i in
  (if p =? 0 then
     let* pageSize := get_pageSize in
     let* r := malloc (to_size_t (pageSize + pageOffset_)) raw in
     set_page i r ;;
     let page := r in
     store8 page (to_uint8 i) ;;
     set_page i (page + 1)
   else ret tt) ;;
  let* p := page_at i in
  placement_new p T args.

(** The [for (int i = 0; i < 64;)] loop of [Allocate], entered at position
    [i] with the local [bit].  [Some p] is a [return] from inside the loop,
    [None] is leaving it at [i = 64].  [continue] re-enters the loop at the
    same [i], so the recursion is on [fuel], one unit an iteration; [env]
    lists the writes of other threads, and an iteration that does not
    advance [i] has consumed one of them. *)
Fixpoint Allocate_loop (fuel : nat) (T : CxxType) (args : list Z)
    (env : list (option Z)) (raw : Z) (i bit : Z) : M (option Z) :=
  match fuel with
  | O => crash Livelock
  | S fuel' =>
    if 64 <=? i then ret None
    else
      let _bit := Z.shiftl 1 i in
      if Z.land bit _bit =? 0 then
        let '(e, env1) := next_env env in
        let* '(ok, bit1) := bits_compare_exchange_strong e bit (Z.lor bit _bit) in
        if ok : bool then
          let* q := Allocate_claimed T args raw i in
          ret (Some q)
        else
          let '(e', env2) := next_env env1 in
          let* bit2 := bits_load e' in
          if Z.land bit2 _bit =? 0
          then Allocate_loop fuel' T args env2 raw i bit2
          else Allocate_loop fuel' T args env2 raw (i + 1) bit2
      else Allocate_loop fuel' T args env raw (i + 1) bit
  end.

(** [Allocate<T>(args...)].  [sizeof(T) > pageSize_] compares a [size_t]
    with an [int64_t]: the usual arithmetic conversions turn [pageSize_]
    into a [size_t].  The loop gets 64 iterations plus one for each write
    of another thread, which it cannot exceed ([Allocate_total]). *)
Definition Allocate (T : CxxType) (args : list Z) (env : list (option Z)) (raw : Z) : M Z :=
  let* pageSize := get_pageSize in
  if to_size_t pageSize <? sizeof T then AllocateExtend T args raw
  else
    let '(e, env1) := next_env env in
    let* bit := bits_load e in
    let* r := Allocate_loop (65 + length env1) T args env1 raw 0 bit in
    match r with
    | Some p => ret p
    | None => AllocateExtend T args raw
    end.

(** [Deallocate<T>(ptr)] *)
Definition Deallocate (T : CxxType) (ptr : Z) : M unit :=
  let page := ptr - 1 in
  destroy ptr T ;;
  let* head := load8 page in
  if head =? extendFlag_ then free page
  else
    let index := head in
    if 64 <=? index then crash BadShift
    else
      bits_fetch_and (not64 (Z.shiftl 1 index)) ;;
      ret tt.

(** [~MemoryPool()]: [n] iterations of the loop remain, at position [i]. *)
Fixpoint destroy_loop (n : nat) (i : Z) : M unit :=
  match n with
  | O => ret tt
  | S n' =>
      let* p := page_at i in
      (if p =? 0 then ret tt else free (p - 1)) ;;
      destroy_loop n' (i + 1)
  end.

Definition MemoryPool_destroy : M unit := destroy_loop 64 0.

(** ** Small types used in examples *)

(** [struct Point { int x, y; Point(int x, int y); }] *)
Definition Point : CxxType :=
  {| sizeof := 8; alignof := 4; ctor := fun args => args |}.

(** A type larger than the default page. *)
Definition Big : CxxType :=
  {| sizeof := 1024; alignof := 8; ctor := fun args => args |}.

(** The first position, among [n] positions starting at [i], whose bit is
    clear in [b]. *)
Fixpoint first_clear (n : nat) (i b : Z) : option Z :=
  match n with
  | O => None
  | S n' => if Z.testbit b i then first_clear n' (i + 1) b else Some i
  end.


(** ** Sequences of calls on one pool *)

(** A call by the single thread using the pool.  An [Allocate] carries the
    address the raw allocator would answer with. *)
Inductive Op :=
| OpAllocate (T : CxxType) (args : list Z) (raw : Z)
| OpDeallocate (T : CxxType) (ptr : Z).

Definition exec (op : Op) : M unit :=
  match op with
  | OpAllocate T args raw => Allocate T args [] raw ;; ret tt
  | OpDeallocate T ptr => Deallocate T ptr
  end.

(** The caller's and the allocator's side of the contract: the allocator
    succeeds with the base of a block that is not live, and [Deallocate] is
    only given a pointer to an object that [Allocate] constructed and that
    was not deallocated since. *)
Definition allowed (op : Op) (w : World) : Prop :=
  match op with
  | OpAllocate T args raw => 0 < raw /\ blocks w !! raw = None
  | OpDeallocate T ptr => is_Some (objects w !! ptr)
  end.

Inductive reachable (pageSize : Z) : World -> Prop :=
| reach_fresh : reachable pageSize (fresh_world pageSize)
| reach_step (w w' : World) (op : Op) :
    reachable pageSize w -> allowed op w -> exec op w = (Done tt, w') ->
    reachable pageSize w'.

(** The events a computation added to the trace of [w]. *)
Definition calls_since (w w' : World) : list Event :=
  take (length (trace w') - length (trace w))%nat (trace w').

Definition is_aligned_alloc (e : Event) : bool :=
  match e with EvAlignedAlloc _ _ _ => true | _ => false end.
Definition is_destruct (e : Event) : bool :=
  match e with EvDestruct _ _ => true | _ => false end.

(** The run took the overflow path: it called [std::aligned_alloc], which
    only [AllocateExtend] does. *)
Definition took_overflow (w w' : World) : bool :=
  existsb is_aligned_alloc (calls_since w w').

(** The run was served from slot [i]: it set bit [i], returned [pages_[i]],
    and an object lives there. *)
Definition served_from_slot (i : Z) (w : World) (r : Outcome Z * World) : Prop :=
  exists p, fst r = Done p /\ p <> 0 /\
    pages_ (this (snd r)) !! Z.to_nat i = Some p /\
    Z.testbit (bits_ (this w)) i = false /\
    Z.testbit (bits_ (this (snd r))) i = true /\
    is_Some (objects (snd r) !! p).

(** ** The representation invariant of a pool in its world *)

Record pool_inv (w : World) : Prop := {
  inv_length : length (pages_ (this w)) = 64%nat;
  inv_null : blocks w !! 0 = None;
  inv_page : forall (i : nat) (p : Z),
      pages_ (this w) !! i = Some p -> p <> 0 ->
      is_Some (blocks w !! (p - 1)) /\ bytes w !! (p - 1) = Some (Z.of_nat i);
  inv_occupancy : forall (i : nat) (p : Z),
      pages_ (this w) !! i = Some p ->
      (Z.testbit (bits_ (this w)) (Z.of_nat i) = true <->
       p <> 0 /\ is_Some (objects w !! p));
  inv_object : forall q : Z,
      is_Some (objects w !! q) ->
      (q <> 0 /\ exists i : nat, pages_ (this w) !! i = Some q) \/
      (bytes w !! (q - 1) = Some extendFlag_ /\ is_Some (blocks w !! (q - 1)));
  inv_history : forall r : Z,
      (exists s, In (EvMalloc s r) (trace w)) <->
      (exists (i : nat) (p : Z), pages_ (this w) !! i = Some p /\ p <> 0 /\ r = p - 1);
  inv_bits : 0 <= bits_ (this w) < 2 ^ 64
}.

(** ** The world after each path, written out *)

Definition after_extend (T : CxxType) (args : list Z) (raw : Z) (w : World) : World :=
  {| this := this w;
     blocks := <[raw := to_size_t (sizeof T + pageOffset_)]> (blocks w);
     bytes := <[raw := extendFlag_]> (bytes w);
     objects := <[raw + 1 := {| obj_type := T; obj_repr := ctor T args |}]> (objects w);
     trace := EvConstruct (raw + 1) T args
              :: EvAlignedAlloc (alignof T) (to_size_t (sizeof T + pageOffset_)) raw
              :: trace w |}.

Definition after_claim_fresh (T : CxxType) (args : list Z) (raw j : Z) (w : World) : World :=
  {| this := {| pageSize_ := pageSize_ (this w);
                bits_ := Z.lor (bits_ (this w)) (Z.shiftl 1 j);
                pages_ := <[Z.to_nat j := raw + 1]> (pages_ (this w)) |};
     blocks := <[raw := to_size_t (pageSize_ (this w) + pageOffset_)]> (blocks w);
     bytes := <[raw := to_uint8 j]> (bytes w);
     objects := <[raw + 1 := {| obj_type := T; obj_repr := ctor T args |}]> (objects w);
     trace := EvConstruct (raw + 1) T args
              :: EvMalloc (to_size_t (pageSize_ (this w) + pageOffset_)) raw
              :: trace w |}.

Definition after_claim_reuse (T : CxxType) (args : list Z) (j p : Z) (w : World) : World :=
  {| this := {| pageSize_ := pageSize_ (this w);
                bits_ := Z.lor (bits_ (this w)) (Z.shiftl 1 j);
                pages_ := pages_ (this w) |};
     blocks := blocks w;
     bytes := bytes w;
     objects := <[p := {| obj_type := T; obj_repr := ctor T args |}]> (objects w);
     trace := EvConstruct p T args :: trace w |}.

Definition after_release_slot (T : CxxType) (ptr h : Z) (w : World) : World :=
  {| this := {| pageSize_ := pageSize_ (this w);
                bits_ := Z.land (bits_ (this w)) (not64 (Z.shiftl 1 h));
                pages_ := pages_ (this w) |};
     blocks := blocks w;
     bytes := bytes w;
     objects := delete ptr (objects w);
     trace := EvDestruct ptr T :: trace w |}.

Definition after_release_extend (T : CxxType) (ptr : Z) (w : World) : World :=
  {| this := this w;
     blocks := delete (ptr - 1) (blocks w);
     bytes := delete (ptr - 1) (bytes w);
     objects := delete ptr (objects w);
     trace := EvFree (ptr - 1) :: EvDestruct ptr T :: trace w |}.

(** The condition under which [Allocate] does not enter the scan. *)
Definition too_big (T : CxxType) (w : World) : bool :=
  to_size_t (pageSize_ (this w)) <? sizeof T.

(** The blocks behind the slots of [pages_] that hold a page, in slot
    order: each page starts one byte before the recorded payload address. *)
Fixpoint page_bases (ps : list Z) : list Z :=
  match ps with
  | [] => []
  | p :: ps' => if p =? 0 then page_bases ps' else (p - 1) :: page_bases ps'
  end.

(** Running a sequence of calls, stopping at the first fault. *)
Fixpoint run (ops : list Op) (w : World) : Outcome unit * World :=
  match ops with
  | [] => (Done tt, w)
  | op :: ops' =>
      match exec op w with
      | (Done _, w') => run ops' w'
      | (Crash f, w') => (Crash f, w')
      end
  end.

(** [n] allocations of a [Point], the allocator handing out blocks 1024
    bytes apart from [base] upwards. *)
Fixpoint fill (n : nat) (base : Z) : list Op :=
  match n with
  | O => []
  | S n' => OpAllocate Point [3; 4] base :: fill n' (base + 1024)
  end.

(** The default pool with all 64 slots occupied. *)
Definition full_world : World := snd (run (fill 64 4096) (fresh_world 512)).

(** The default pool after a single [Allocate<Point>(3, 4)]. *)
Definition one_point_world : World :=
  snd (Allocate Point [3; 4] [] 4096 (fresh_world 512)).

(** Every call of the sequence is [allowed] in the world it runs in. *)
Fixpoint allowed_run (ops : list Op) (w : World) : Prop :=
  match ops with
  | [] => True
  | op :: ops' =>
      allowed op w /\
      match exec op w with
      | (Done _, w') => allowed_run ops' w'
      | (Crash _, _) => False
      end
  end.


(** ** Further notions used to state properties of the pool *)


(** The addresses the [std::malloc] calls of a trace returned. *)
Fixpoint malloc_rets (t : list Event) : list Z :=
  match t with
  | [] => []
  | EvMalloc _ r :: t' => r :: malloc_rets t'
  | _ :: t' => malloc_rets t'
  end.

(** What the raw heap of a pool built with [pageSize] looks like: every
    page block has [pageSize + 1] bytes, every live block is a page or the
    block of a live overflow object, and the pages are the blocks
    [std::malloc] returned, each once. *)
Record heap_inv (pageSize : Z) (w : World) : Prop := {
  hinv_pageSize : pageSize_ (this w) = pageSize;
  hinv_page_size : forall (i : nat) (p : Z),
      pages_ (this w) !! i = Some p -> p <> 0 ->
      blocks w !! (p - 1) = Some (to_size_t (pageSize + pageOffset_));
  hinv_block : forall (b sz : Z),
      blocks w !! b = Some sz ->
      (exists (i : nat) (p : Z), pages_ (this w) !! i = Some p /\ p <> 0 /\ b = p - 1) \/
      (is_Some (objects w !! (b + 1)) /\ bytes w !! b = Some extendFlag_);
  hinv_mallocs : malloc_rets (trace w) ≡ₚ page_bases (pages_ (this w))
}.

(** A call that allocates an object whose type passes the size test of a
    pool built with [pageSize]. *)
Definition fits (pageSize : Z) (op : Op) : Prop :=
  match op with
  | OpAllocate T _ _ => sizeof T <= to_size_t pageSize
  | OpDeallocate _ _ => False
  end.

(** The default pool after a single [Allocate<Big>(7)]. *)
Definition one_big_world : World :=
  snd (Allocate Big [7] [] 8192 (fresh_world 512)).

(** The default pool after [Allocate<Point>(3, 4)] and the [Deallocate] of
    what it returned. *)
Definition recycled_world : World :=
  snd (Deallocate Point 4097 one_point_world).

(** * Properties *)

(** ** Bit arithmetic on the occupancy mask *)

Lemma testbit_one_shl (i n : Z) :
  0 <= i -> Z.testbit (Z.shiftl 1 i) n = (i =? n).
Proof.
  intros Hi. rewrite Z.shiftl_1_l. apply Z.pow2_bits_eqb. exact Hi.
Qed.

Lemma land_one_shl_zero (b i : Z) :
  0 <= i -> (Z.land b (Z.shiftl 1 i) =? 0) = negb (Z.testbit b i).
Proof.
  intros Hi. destruct (Z.testbit b i) eqn:Hb; cbn.
  - apply Z.eqb_neq. intros H0.
    assert (Ht : Z.testbit (Z.land b (Z.shiftl 1 i)) i = true).
    { rewrite Z.land_spec, Hb, testbit_one_shl, Z.eqb_refl by exact Hi. reflexivity. }
    rewrite H0, Z.bits_0 in Ht. discriminate.
  - apply Z.eqb_eq. apply Z.bits_inj'. intros n _.
    rewrite Z.land_spec, Z.bits_0, testbit_one_shl by exact Hi.
    destruct (Z.eqb_spec i n) as [->|_].
    + rewrite Hb. reflexivity.
    + apply andb_false_r.
Qed.

Lemma testbit_set (b i n : Z) :
  0 <= i ->
  Z.testbit (Z.lor b (Z.shiftl 1 i)) n = Z.testbit b n || (i =? n).
Proof. intros Hi. rewrite Z.lor_spec, testbit_one_shl by exact Hi. reflexivity. Qed.

Lemma testbit_clear (b i n : Z) :
  0 <= i < 64 -> 0 <= n < 64 ->
  Z.testbit (Z.land b (not64 (Z.shiftl 1 i))) n = Z.testbit b n && negb (i =? n).
Proof.
  intros Hi Hn. unfold not64.
  rewrite Z.land_spec, Z.lxor_spec, testbit_one_shl by lia.
  rewrite Z.ones_spec_low by lia.
  destruct (i =? n); reflexivity.
Qed.

Lemma set_in_range (b i : Z) :
  0 <= i < 64 -> 0 <= b < 2 ^ 64 -> 0 <= Z.lor b (Z.shiftl 1 i) < 2 ^ 64.
Proof.
  intros Hi Hb.
  assert (H0 : 0 <= Z.lor b (Z.shiftl 1 i)).
  { apply Z.lor_nonneg. split; [lia|]. apply Z.shiftl_nonneg. lia. }
  split; [exact H0|].
  destruct (Z.eq_dec (Z.lor b (Z.shiftl 1 i)) 0) as [->|Hnz]; [lia|].
  apply Z.log2_lt_pow2; [lia|].
  rewrite Z.log2_lor by (try lia; apply Z.shiftl_nonneg; lia).
  apply Z.max_lub_lt.
  - destruct (Z.eq_dec b 0) as [->|Hb0]; [cbn; lia|].
    apply Z.log2_lt_pow2; lia.
  - rewrite Z.shiftl_1_l, Z.log2_pow2; lia.
Qed.

Lemma clear_in_range (b m : Z) :
  0 <= b < 2 ^ 64 -> 0 <= Z.land b m < 2 ^ 64.
Proof.
  intros Hb.
  assert (H0 : 0 <= Z.land b m) by (apply Z.land_nonneg; lia).
  split; [exact H0|].
  destruct (Z.eq_dec (Z.land b m) 0) as [->|Hnz]; [lia|].
  apply Z.log2_lt_pow2; [lia|].
  assert (Hle : Z.land b m <= b).
  { assert (Hs : Z.land b m = b - Z.ldiff b m).
    { rewrite <- (Z.add_move_r). rewrite Z.add_comm.
      symmetry. rewrite Z.add_nocarry_lxor.
      - apply Z.bits_inj'. intros n _.
        rewrite Z.lxor_spec, Z.land_spec, Z.ldiff_spec.
        destruct (Z.testbit b n), (Z.testbit m n); reflexivity.
      - apply Z.bits_inj'. intros n _.
        rewrite Z.land_spec, Z.land_spec, Z.ldiff_spec, Z.bits_0.
        destruct (Z.testbit b n), (Z.testbit m n); reflexivity. }
    assert (0 <= Z.ldiff b m) by (apply Z.ldiff_nonneg; lia). lia. }
  assert (b <> 0) by lia.
  eapply Z.le_lt_trans; [apply Z.log2_le_mono; exact Hle|].
  apply Z.log2_lt_pow2; lia.
Qed.

(** ** The scan without interference *)

Lemma first_clear_Some (n : nat) (i b j : Z) :
  first_clear n i b = Some j ->
  i <= j < i + Z.of_nat n /\ Z.testbit b j = false /\
  forall k, i <= k < j -> Z.testbit b k = true.
Proof.
  revert i. induction n as [|n IH]; intros i H; cbn in H; [discriminate|].
  destruct (Z.testbit b i) eqn:Hb.
  - apply IH in H. destruct H as (Hr & Hj & Hlow).
    split; [lia|]. split; [exact Hj|].
    intros k Hk. destruct (Z.eq_dec k i) as [->|Hne]; [exact Hb|].
    apply Hlow. lia.
  - injection H as <-. split; [lia|]. split; [exact Hb|]. intros k Hk. lia.
Qed.

Lemma first_clear_None (n : nat) (i b : Z) :
  first_clear n i b = None <->
  forall k, i <= k < i + Z.of_nat n -> Z.testbit b k = true.
Proof.
  revert i. induction n as [|n IH]; intros i; cbn [first_clear].
  - split; [intros _ k Hk; lia|reflexivity].
  - destruct (Z.testbit b i) eqn:Hb.
    + rewrite IH. split; intros H k Hk.
      * destruct (Z.eq_dec k i) as [->|Hne]; [exact Hb|]. apply H. lia.
      * apply H. lia.
    + split; [discriminate|]. intros H. rewrite H in Hb by lia. discriminate.
Qed.

Lemma bind_unfold {A B} (m : M A) (k : A -> M B) (w : World) :
  bind m k w = match m w with
               | (Done a, w') => k a w'
               | (Crash f, w') => (Crash f, w')
               end.
Proof. reflexivity. Qed.

(** With no interference and [bit] equal to the stored mask, the loop
    claims the first clear bit at or after [i], or leaves at 64 with the
    world untouched. *)
Lemma Allocate_loop_quiet (fuel : nat) T args raw (i : Z) (w : World) :
  0 <= i <= 64 -> (Z.to_nat (64 - i) < fuel)%nat ->
  Allocate_loop fuel T args [] raw i (bits_ (this w)) w =
  match first_clear (Z.to_nat (64 - i)) i (bits_ (this w)) with
  | Some j =>
      (let* q := Allocate_claimed T args raw j in ret (Some q))
        (with_bits (Z.lor (bits_ (this w)) (Z.shiftl 1 j)) w)
  | None => (Done None, w)
  end.
Proof.
  revert i. induction fuel as [|fuel IH]; intros i Hi Hf; [lia|].
  cbn [Allocate_loop].
  destruct (Z.leb_spec 64 i) as [Hge|Hlt].
  - replace (Z.to_nat (64 - i)) with 0%nat by lia. reflexivity.
  - replace (Z.to_nat (64 - i)) with (S (Z.to_nat (64 - (i + 1)))) by lia.
    cbn [first_clear].
    rewrite land_one_shl_zero by lia.
    destruct (Z.testbit (bits_ (this w)) i) eqn:Hb; cbn [negb].
    + apply IH; lia.
    + cbn [next_env]. rewrite bind_unfold.
      unfold bits_compare_exchange_strong at 1, interfere at 1.
      rewrite bind_unfold. rewrite Z.eqb_refl. reflexivity.
Qed.

(** [Allocate] when no other thread touches [bits_]. *)
Lemma Allocate_quiet T args raw (w : World) :
  Allocate T args [] raw w =
  if to_size_t (pageSize_ (this w)) <? sizeof T then AllocateExtend T args raw w
  else match first_clear 64 0 (bits_ (this w)) with
       | Some j =>
           Allocate_claimed T args raw j
             (with_bits (Z.lor (bits_ (this w)) (Z.shiftl 1 j)) w)
       | None => AllocateExtend T args raw w
       end.
Proof.
  unfold Allocate. rewrite bind_unfold. cbn [get_pageSize].
  destruct (to_size_t (pageSize_ (this w)) <? sizeof T); [reflexivity|].
  cbn [next_env]. rewrite bind_unfold.
  unfold bits_load at 1. rewrite bind_unfold. cbn [interfere].
  rewrite bind_unfold.
  rewrite (Allocate_loop_quiet (65 + length []) T args raw 0 w) by (cbn; lia).
  change (Z.to_nat (64 - 0)) with 64%nat.
  destruct (first_clear 64 0 (bits_ (this w))) as [j|]; [|reflexivity].
  rewrite bind_unfold.
  destruct (Allocate_claimed T args raw j _) as [[q|f] w']; reflexivity.
Qed.

(** ** What each path does to the world *)

Lemma AllocateExtend_ok T args raw (w : World) :
  raw <> 0 ->
  AllocateExtend T args raw w =
  (Done (raw + 1),
   {| this := this w;
      blocks := <[raw := to_size_t (sizeof T + pageOffset_)]> (blocks w);
      bytes := <[raw := extendFlag_]> (bytes w);
      objects := <[raw + 1 := {| obj_type := T; obj_repr := ctor T args |}]> (objects w);
      trace := EvConstruct (raw + 1) T args
               :: EvAlignedAlloc (alignof T) (to_size_t (sizeof T + pageOffset_)) raw
               :: trace w |}).
Proof.
  intros Hraw. unfold AllocateExtend, aligned_alloc, store8, placement_new.
  rewrite !bind_unfold. cbn.
  apply Z.eqb_neq in Hraw. rewrite Hraw. reflexivity.
Qed.

Lemma AllocateExtend_null T args (w : World) :
  AllocateExtend T args 0 w =
  (Crash NullDereference,
   log (EvAlignedAlloc (alignof T) (to_size_t (sizeof T + pageOffset_)) 0) w).
Proof. reflexivity. Qed.

Lemma page_at_ok (i : Z) (p : Z) (w : World) :
  0 <= i < 64 -> pages_ (this w) !! Z.to_nat i = Some p ->
  page_at i w = (Done p, w).
Proof.
  intros Hi Hp. unfold page_at.
  destruct (Z.leb_spec 0 i); [|lia]. destruct (Z.ltb_spec i 64); [|lia].
  cbn. rewrite Hp. reflexivity.
Qed.

Lemma set_page_ok (i p : Z) (w : World) :
  0 <= i < 64 -> (Z.to_nat i < length (pages_ (this w)))%nat ->
  set_page i p w = (Done tt, with_pages (<[Z.to_nat i := p]> (pages_ (this w))) w).
Proof.
  intros Hi Hl. unfold set_page.
  destruct (Z.leb_spec 0 i); [|lia]. destruct (Z.ltb_spec i 64); [|lia].
  destruct (Nat.ltb_spec (Z.to_nat i) (length (pages_ (this w)))); [|lia].
  reflexivity.
Qed.

(** The claimed slot has a page already: nothing is allocated. *)
Lemma Allocate_claimed_reuse T args raw (i p : Z) (w : World) :
  0 <= i < 64 -> pages_ (this w) !! Z.to_nat i = Some p -> p <> 0 ->
  Allocate_claimed T args raw i w =
  (Done p,
   {| this := this w; blocks := blocks w; bytes := bytes w;
      objects := <[p := {| obj_type := T; obj_repr := ctor T args |}]> (objects w);
      trace := EvConstruct p T args :: trace w |}).
Proof.
  intros Hi Hp Hnz. unfold Allocate_claimed.
  rewrite bind_unfold, (page_at_ok i p) by assumption.
  apply Z.eqb_neq in Hnz. rewrite Hnz.
  rewrite bind_unfold. cbn [ret]. rewrite bind_unfold, (page_at_ok i p) by assumption.
  reflexivity.
Qed.

(** The claimed slot has no page yet and the allocator answers [raw]. *)
Lemma Allocate_claimed_fresh T args raw (i : Z) (w : World) :
  0 <= i < 64 -> pages_ (this w) !! Z.to_nat i = Some 0 -> raw <> 0 ->
  Allocate_claimed T args raw i w =
  (Done (raw + 1),
   {| this := {| pageSize_ := pageSize_ (this w); bits_ := bits_ (this w);
                 pages_ := <[Z.to_nat i := raw + 1]> (pages_ (this w)) |};
      blocks := <[raw := to_size_t (pageSize_ (this w) + pageOffset_)]> (blocks w);
      bytes := <[raw := to_uint8 i]> (bytes w);
      objects := <[raw + 1 := {| obj_type := T; obj_repr := ctor T args |}]> (objects w);
      trace := EvConstruct (raw + 1) T args
               :: EvMalloc (to_size_t (pageSize_ (this w) + pageOffset_)) raw
               :: trace w |}).
Proof.
  intros Hi Hp Hraw.
  assert (Hlen : (Z.to_nat i < length (pages_ (this w)))%nat).
  { apply lookup_lt_Some in Hp. exact Hp. }
  unfold Allocate_claimed.
  rewrite bind_unfold, (page_at_ok i 0) by assumption.
  cbn [Z.eqb]. rewrite bind_unfold.
  rewrite (bind_unfold get_pageSize). cbn [get_pageSize].
  rewrite (bind_unfold (malloc _ _)). unfold malloc at 1.
  apply Z.eqb_neq in Hraw. rewrite Hraw.
  rewrite bind_unfold, set_page_ok by (cbn; assumption).
  rewrite bind_unfold. unfold store8 at 1. rewrite Hraw.
  rewrite set_page_ok by (cbn; rewrite ?length_insert; assumption).
  rewrite bind_unfold.
  erewrite page_at_ok; [|assumption|].
  2:{ cbn. rewrite list_insert_insert_eq. apply list_lookup_insert_eq. exact Hlen. }
  unfold placement_new. cbn. rewrite list_insert_insert_eq. reflexivity.
Qed.

(** The claimed slot has no page yet and the allocator fails: the store of
    the header byte goes through the null pointer. *)
Lemma Allocate_claimed_null_run T args (i : Z) (w : World) :
  0 <= i < 64 -> pages_ (this w) !! Z.to_nat i = Some 0 ->
  Allocate_claimed T args 0 i w =
  (Crash NullDereference,
   log (EvMalloc (to_size_t (pageSize_ (this w) + pageOffset_)) 0)
       (with_pages (<[Z.to_nat i := 0]> (pages_ (this w))) w)).
Proof.
  intros Hi Hp.
  assert (Hlen : (Z.to_nat i < length (pages_ (this w)))%nat).
  { apply lookup_lt_Some in Hp. exact Hp. }
  unfold Allocate_claimed.
  rewrite bind_unfold, (page_at_ok i 0) by assumption.
  cbn [Z.eqb]. rewrite bind_unfold.
  rewrite (bind_unfold get_pageSize). cbn [get_pageSize].
  rewrite (bind_unfold (malloc _ _)). unfold malloc at 1. cbn [Z.eqb].
  rewrite bind_unfold, set_page_ok by (cbn; assumption).
  rewrite bind_unfold. unfold store8 at 1. cbn [Z.eqb]. reflexivity.
Qed.

Lemma Deallocate_extend T (ptr : Z) (w : World) :
  is_Some (objects w !! ptr) -> ptr - 1 <> 0 ->
  bytes w !! (ptr - 1) = Some extendFlag_ -> is_Some (blocks w !! (ptr - 1)) ->
  Deallocate T ptr w =
  (Done tt,
   {| this := this w;
      blocks := delete (ptr - 1) (blocks w);
      bytes := delete (ptr - 1) (bytes w);
      objects := delete ptr (objects w);
      trace := EvFree (ptr - 1) :: EvDestruct ptr T :: trace w |}).
Proof.
  intros [o Ho] Hnz Hh [sz Hb]. unfold Deallocate.
  rewrite bind_unfold. unfold destroy at 1. rewrite Ho.
  rewrite bind_unfold. unfold load8 at 1.
  apply Z.eqb_neq in Hnz. rewrite Hnz. cbn. rewrite Hh.
  unfold free. cbn. rewrite Hb. reflexivity.
Qed.

Lemma Deallocate_slot T (ptr h : Z) (w : World) :
  is_Some (objects w !! ptr) -> ptr - 1 <> 0 ->
  bytes w !! (ptr - 1) = Some h -> 0 <= h < 64 ->
  Deallocate T ptr w =
  (Done tt,
   {| this := {| pageSize_ := pageSize_ (this w);
                 bits_ := Z.land (bits_ (this w)) (not64 (Z.shiftl 1 h));
                 pages_ := pages_ (this w) |};
      blocks := blocks w;
      bytes := bytes w;
      objects := delete ptr (objects w);
      trace := EvDestruct ptr T :: trace w |}).
Proof.
  intros [o Ho] Hnz Hh Hr. unfold Deallocate.
  rewrite bind_unfold. unfold destroy at 1. rewrite Ho.
  rewrite bind_unfold. unfold load8 at 1.
  apply Z.eqb_neq in Hnz. rewrite Hnz. cbn. rewrite Hh.
  destruct (Z.eqb_spec h extendFlag_) as [->|_]; [unfold extendFlag_ in Hr; lia|].
  destruct (Z.leb_spec 64 h); [lia|]. reflexivity.
Qed.

(** ** The invariant holds initially and is kept by every path *)

Lemma pool_inv_fresh (pageSize : Z) : pool_inv (fresh_world pageSize).
Proof.
  constructor; cbn -[replicate].
  - apply length_replicate.
  - apply lookup_empty.
  - intros i p Hp Hnz. apply lookup_replicate in Hp. destruct Hp as [-> _]. lia.
  - intros i p Hp. apply lookup_replicate in Hp. destruct Hp as [-> _].
    rewrite Z.bits_0. split; [discriminate|]. intros [H _]. lia.
  - intros q [o Ho]. rewrite lookup_empty in Ho. discriminate.
  - intros r. split.
    + intros [s []].
    + intros (i & p & Hp & Hnz & _). apply lookup_replicate in Hp. lia.
  - lia.
Qed.

Lemma to_uint8_slot (j : Z) : 0 <= j < 64 -> to_uint8 j = j.
Proof. intros Hj. unfold to_uint8. apply Z.mod_small. lia. Qed.

(** Constructor and destructor calls and calls other than [std::malloc]
    add nothing to the [std::malloc] calls of the trace. *)
Ltac history_kept Hinv :=
  let r := fresh "r" in
  let s := fresh "s" in
  let Hs := fresh "Hs" in
  intros r; rewrite <- (inv_history _ Hinv r);
  split; intros [s Hs]; exists s;
  [ repeat (destruct Hs as [Hs|Hs]; [discriminate|]); exact Hs
  | repeat (right; try exact Hs) ].

Section Preservation.

Context (w : World) (Hinv : pool_inv w).

Lemma slot_index_bound (i : nat) (p : Z) :
  pages_ (this w) !! i = Some p -> (i < 64)%nat.
Proof.
  intros Hp. apply lookup_lt_Some in Hp.
  rewrite (inv_length w Hinv) in Hp. exact Hp.
Qed.

Lemma page_base_live (i : nat) (p raw : Z) :
  pages_ (this w) !! i = Some p -> p <> 0 ->
  blocks w !! raw = None -> p - 1 <> raw.
Proof.
  intros Hp Hnz Hraw Heq. subst raw.
  destruct (inv_page w Hinv i p Hp Hnz) as [[sz Hb] _]. congruence.
Qed.

Lemma pages_distinct (i j : nat) (p : Z) :
  pages_ (this w) !! i = Some p -> pages_ (this w) !! j = Some p ->
  p <> 0 -> i = j.
Proof.
  intros Hi Hj Hnz.
  destruct (inv_page w Hinv i p Hi Hnz) as [_ Hbi].
  destruct (inv_page w Hinv j p Hj Hnz) as [_ Hbj].
  rewrite Hbi in Hbj. injection Hbj. lia.
Qed.

Lemma page_header_not_flag (i : nat) (p : Z) :
  pages_ (this w) !! i = Some p -> p <> 0 ->
  bytes w !! (p - 1) <> Some extendFlag_.
Proof.
  intros Hp Hnz Hh.
  destruct (inv_page w Hinv i p Hp Hnz) as [_ Hb].
  pose proof (slot_index_bound i p Hp) as Hi.
  rewrite Hb in Hh. injection Hh. unfold extendFlag_. lia.
Qed.

Lemma pool_inv_extend (raw sz al : Z) (T : CxxType) (args : list Z) (o : Object) :
  0 < raw -> blocks w !! raw = None ->
  pool_inv {| this := this w;
              blocks := <[raw := sz]> (blocks w);
              bytes := <[raw := extendFlag_]> (bytes w);
              objects := <[raw + 1 := o]> (objects w);
              trace := EvConstruct (raw + 1) T args
                       :: EvAlignedAlloc al sz raw :: trace w |}.
Proof.
  intros Hpos Hraw. constructor; cbn.
  - apply (inv_length w Hinv).
  - rewrite lookup_insert_ne by lia. apply (inv_null w Hinv).
  - intros i p Hp Hnz.
    pose proof (page_base_live i p raw Hp Hnz Hraw) as Hne.
    rewrite !lookup_insert_ne by congruence. apply (inv_page w Hinv i p Hp Hnz).
  - intros i p Hp. rewrite (inv_occupancy w Hinv i p Hp).
    split; intros [Hnz Ho]; (split; [exact Hnz|]);
      pose proof (page_base_live i p raw Hp Hnz Hraw) as Hne.
    + rewrite lookup_insert_ne by lia. exact Ho.
    + rewrite lookup_insert_ne in Ho by lia. exact Ho.
  - intros q Hq. destruct (Z.eq_dec q (raw + 1)) as [->|Hne].
    + right. replace (raw + 1 - 1) with raw by lia.
      rewrite !lookup_insert_eq. split; [reflexivity|eauto].
    + rewrite lookup_insert_ne in Hq by congruence.
      destruct (inv_object w Hinv q Hq) as [Hl|[Hh [szq Hb]]]; [left; exact Hl|right].
      assert (q - 1 <> raw) by congruence.
      rewrite !lookup_insert_ne by congruence. eauto.
  - history_kept Hinv.
  - apply (inv_bits w Hinv).
Qed.

Lemma pool_inv_claim_reuse (j p : Z) (T : CxxType) (args : list Z) (o : Object) :
  0 <= j < 64 ->
  pages_ (this w) !! Z.to_nat j = Some p -> p <> 0 ->
  pool_inv {| this := {| pageSize_ := pageSize_ (this w);
                         bits_ := Z.lor (bits_ (this w)) (Z.shiftl 1 j);
                         pages_ := pages_ (this w) |};
              blocks := blocks w;
              bytes := bytes w;
              objects := <[p := o]> (objects w);
              trace := EvConstruct p T args :: trace w |}.
Proof.
  intros Hj Hp Hnz. constructor; cbn.
  - apply (inv_length w Hinv).
  - apply (inv_null w Hinv).
  - apply (inv_page w Hinv).
  - intros i q Hq. rewrite testbit_set by lia.
    destruct (Z.eqb_spec j (Z.of_nat i)) as [Heq|Hne].
    + assert (Z.to_nat j = i) by lia. subst i.
      rewrite Hp in Hq. injection Hq as <-.
      rewrite orb_true_r, lookup_insert_eq. split; eauto.
    + rewrite orb_false_r, (inv_occupancy w Hinv i q Hq).
      split; intros [Hqz Ho]; (split; [exact Hqz|]).
      * destruct (Z.eq_dec q p) as [->|Hqp].
        -- rewrite lookup_insert_eq. eauto.
        -- rewrite lookup_insert_ne by congruence. exact Ho.
      * destruct (Z.eq_dec q p) as [->|Hqp].
        -- pose proof (pages_distinct i (Z.to_nat j) p Hq Hp Hnz). lia.
        -- rewrite lookup_insert_ne in Ho by congruence. exact Ho.
  - intros q Hq. destruct (Z.eq_dec q p) as [->|Hne].
    + left. split; [exact Hnz|]. exists (Z.to_nat j). exact Hp.
    + rewrite lookup_insert_ne in Hq by congruence. apply (inv_object w Hinv q Hq).
  - history_kept Hinv.
  - apply set_in_range; [lia|apply (inv_bits w Hinv)].
Qed.

Lemma pool_inv_claim_fresh (j raw sz : Z) (T : CxxType) (args : list Z) (o : Object) :
  0 <= j < 64 ->
  pages_ (this w) !! Z.to_nat j = Some 0 ->
  0 < raw -> blocks w !! raw = None ->
  pool_inv {| this := {| pageSize_ := pageSize_ (this w);
                         bits_ := Z.lor (bits_ (this w)) (Z.shiftl 1 j);
                         pages_ := <[Z.to_nat j := raw + 1]> (pages_ (this w)) |};
              blocks := <[raw := sz]> (blocks w);
              bytes := <[raw := to_uint8 j]> (bytes w);
              objects := <[raw + 1 := o]> (objects w);
              trace := EvConstruct (raw + 1) T args :: EvMalloc sz raw :: trace w |}.
Proof.
  intros Hj Hp Hpos Hraw.
  assert (Hlen : (Z.to_nat j < length (pages_ (this w)))%nat)
    by (apply lookup_lt_Some in Hp; exact Hp).
  constructor; cbn.
  - rewrite length_insert. apply (inv_length w Hinv).
  - rewrite lookup_insert_ne by lia. apply (inv_null w Hinv).
  - intros i p Hi Hnz. destruct (Nat.eq_dec i (Z.to_nat j)) as [->|Hne].
    + rewrite list_lookup_insert_eq in Hi by exact Hlen. injection Hi as <-.
      replace (raw + 1 - 1) with raw by lia. rewrite !lookup_insert_eq.
      split; [eauto|]. rewrite to_uint8_slot by lia. f_equal. lia.
    + rewrite list_lookup_insert_ne in Hi by congruence.
      pose proof (page_base_live i p raw Hi Hnz Hraw) as Hb.
      rewrite !lookup_insert_ne by congruence. apply (inv_page w Hinv i p Hi Hnz).
  - intros i q Hi. rewrite testbit_set by lia.
    destruct (Nat.eq_dec i (Z.to_nat j)) as [->|Hne].
    + rewrite list_lookup_insert_eq in Hi by exact Hlen. injection Hi as <-.
      replace (j =? Z.of_nat (Z.to_nat j)) with true by (symmetry; apply Z.eqb_eq; lia).
      rewrite orb_true_r, lookup_insert_eq. split; [|reflexivity].
      intros _. split; [lia|eauto].
    + rewrite list_lookup_insert_ne in Hi by congruence.
      replace (j =? Z.of_nat i) with false by (symmetry; apply Z.eqb_neq; lia).
      rewrite orb_false_r, (inv_occupancy w Hinv i q Hi).
      split; intros [Hqz Ho]; (split; [exact Hqz|]);
        pose proof (page_base_live i q raw Hi Hqz Hraw) as Hb.
      * rewrite lookup_insert_ne by lia. exact Ho.
      * rewrite lookup_insert_ne in Ho by lia. exact Ho.
  - intros q Hq. destruct (Z.eq_dec q (raw + 1)) as [->|Hne].
    + left. split; [lia|]. exists (Z.to_nat j).
      apply list_lookup_insert_eq. exact Hlen.
    + rewrite lookup_insert_ne in Hq by congruence.
      destruct (inv_object w Hinv q Hq) as [[Hqz [i Hi]]|[Hh [szq Hb]]].
      * left. split; [exact Hqz|]. exists i.
        rewrite list_lookup_insert_ne; [exact Hi|]. intros <-. congruence.
      * right. assert (q - 1 <> raw) by congruence.
        rewrite !lookup_insert_ne by congruence. eauto.
  - intros r. split.
    + intros [s [Hs|[Hs|Hs]]]; [discriminate| |].
      * injection Hs as _ <-. exists (Z.to_nat j), (raw + 1).
        rewrite list_lookup_insert_eq by exact Hlen. repeat split; lia.
      * destruct (proj1 (inv_history w Hinv r) (ex_intro _ s Hs))
          as (i & p & Hi & Hnz & ->).
        exists i, p. rewrite list_lookup_insert_ne; [auto|]. intros <-. congruence.
    + intros (i & p & Hi & Hnz & ->).
      destruct (Nat.eq_dec i (Z.to_nat j)) as [->|Hne].
      * rewrite list_lookup_insert_eq in Hi by exact Hlen. injection Hi as <-.
        exists sz. right. left. f_equal. lia.
      * rewrite list_lookup_insert_ne in Hi by congruence.
        destruct (proj2 (inv_history w Hinv (p - 1))) as [s Hs]; [eauto|].
        exists s. right. right. exact Hs.
  - apply set_in_range; [lia|apply (inv_bits w Hinv)].
Qed.

Lemma pool_inv_dealloc_slot (i : nat) (ptr : Z) (T : CxxType) :
  pages_ (this w) !! i = Some ptr -> ptr <> 0 ->
  pool_inv {| this := {| pageSize_ := pageSize_ (this w);
                         bits_ := Z.land (bits_ (this w))
                                    (not64 (Z.shiftl 1 (Z.of_nat i)));
                         pages_ := pages_ (this w) |};
              blocks := blocks w;
              bytes := bytes w;
              objects := delete ptr (objects w);
              trace := EvDestruct ptr T :: trace w |}.
Proof.
  intros Hp Hnz. pose proof (slot_index_bound i ptr Hp) as Hi.
  constructor; cbn.
  - apply (inv_length w Hinv).
  - apply (inv_null w Hinv).
  - apply (inv_page w Hinv).
  - intros k q Hq. pose proof (slot_index_bound k q Hq) as Hk.
    rewrite testbit_clear by lia.
    destruct (Nat.eq_dec k i) as [->|Hne].
    + rewrite Hp in Hq. injection Hq as <-.
      rewrite Z.eqb_refl, andb_false_r, lookup_delete_eq.
      split; [discriminate|]. intros [_ [o Ho]]. discriminate.
    + replace (Z.of_nat i =? Z.of_nat k) with false by (symmetry; apply Z.eqb_neq; lia).
      rewrite andb_true_r, (inv_occupancy w Hinv k q Hq).
      split; intros [Hqz Ho]; (split; [exact Hqz|]).
      * rewrite lookup_delete_ne; [exact Ho|]. intros <-.
        apply Hne. symmetry. apply (pages_distinct i k ptr Hp Hq Hnz).
      * destruct (Z.eq_dec ptr q) as [->|Hpq].
        -- rewrite lookup_delete_eq in Ho. destruct Ho; discriminate.
        -- rewrite lookup_delete_ne in Ho by exact Hpq. exact Ho.
  - intros q Hq. destruct (Z.eq_dec ptr q) as [->|Hpq].
    + rewrite lookup_delete_eq in Hq. destruct Hq; discriminate.
    + rewrite lookup_delete_ne in Hq by exact Hpq. apply (inv_object w Hinv q Hq).
  - history_kept Hinv.
  - apply clear_in_range. apply (inv_bits w Hinv).
Qed.

Lemma pool_inv_dealloc_extend (ptr : Z) (T : CxxType) :
  bytes w !! (ptr - 1) = Some extendFlag_ ->
  pool_inv {| this := this w;
              blocks := delete (ptr - 1) (blocks w);
              bytes := delete (ptr - 1) (bytes w);
              objects := delete ptr (objects w);
              trace := EvFree (ptr - 1) :: EvDestruct ptr T :: trace w |}.
Proof.
  intros Hh.
  assert (Hpage : forall (i : nat) (p : Z),
             pages_ (this w) !! i = Some p -> p <> 0 -> ptr - 1 <> p - 1).
  { intros i p Hp Hnz Heq. apply (page_header_not_flag i p Hp Hnz). congruence. }
  constructor; cbn.
  - apply (inv_length w Hinv).
  - apply lookup_delete_None. right. apply (inv_null w Hinv).
  - intros i p Hp Hnz. rewrite !lookup_delete_ne by (eapply Hpage; eassumption).
    apply (inv_page w Hinv i p Hp Hnz).
  - intros i q Hq. rewrite (inv_occupancy w Hinv i q Hq).
    split; intros [Hqz Ho]; (split; [exact Hqz|]);
      pose proof (Hpage i q Hq Hqz) as Hne.
    + rewrite lookup_delete_ne by lia. exact Ho.
    + rewrite lookup_delete_ne in Ho by lia. exact Ho.
  - intros q Hq. destruct (Z.eq_dec ptr q) as [->|Hpq].
    + rewrite lookup_delete_eq in Hq. destruct Hq; discriminate.
    + rewrite lookup_delete_ne in Hq by exact Hpq.
      destruct (inv_object w Hinv q Hq) as [Hl|[Hq1 Hq2]]; [left; exact Hl|right].
      rewrite !lookup_delete_ne by lia. auto.
  - history_kept Hinv.
  - apply (inv_bits w Hinv).
Qed.

End Preservation.

(** ** [Allocate] and [Deallocate] by cases *)

Lemma slot_has_page (w : World) (j : Z) :
  length (pages_ (this w)) = 64%nat -> 0 <= j < 64 ->
  exists p, pages_ (this w) !! Z.to_nat j = Some p.
Proof.
  intros Hlen Hj. apply lookup_lt_is_Some. lia.
Qed.

(** The three ways a quiet [Allocate] ends when the allocator succeeds. *)
Lemma Allocate_quiet_cases T args raw (w : World) :
  length (pages_ (this w)) = 64%nat -> raw <> 0 ->
  ((too_big T w = true \/ first_clear 64 0 (bits_ (this w)) = None) /\
   Allocate T args [] raw w = (Done (raw + 1), after_extend T args raw w))
  \/
  (exists j, too_big T w = false /\ first_clear 64 0 (bits_ (this w)) = Some j /\
     pages_ (this w) !! Z.to_nat j = Some 0 /\
     Allocate T args [] raw w = (Done (raw + 1), after_claim_fresh T args raw j w))
  \/
  (exists j p, too_big T w = false /\ first_clear 64 0 (bits_ (this w)) = Some j /\
     pages_ (this w) !! Z.to_nat j = Some p /\ p <> 0 /\
     Allocate T args [] raw w = (Done p, after_claim_reuse T args j p w)).
Proof.
  intros Hlen Hraw. rewrite Allocate_quiet. fold (too_big T w).
  destruct (too_big T w) eqn:Hbig.
  { left. split; [left; reflexivity|]. apply AllocateExtend_ok. exact Hraw. }
  destruct (first_clear 64 0 (bits_ (this w))) as [j|] eqn:Hfc.
  2:{ left. split; [right; reflexivity|]. apply AllocateExtend_ok. exact Hraw. }
  right. destruct (first_clear_Some _ _ _ _ Hfc) as (Hj & _ & _).
  destruct (slot_has_page w j Hlen) as [p Hp]; [lia|].
  destruct (Z.eq_dec p 0) as [->|Hnz].
  - left. exists j. repeat split; try assumption.
    rewrite Allocate_claimed_fresh by (try exact Hraw; try lia; exact Hp).
    reflexivity.
  - right. exists j, p. repeat split; try assumption.
    rewrite (Allocate_claimed_reuse T args raw j p) by (try exact Hnz; try lia; exact Hp).
    reflexivity.
Qed.

(** The two ways [Deallocate] ends on a pointer to a live object of a pool
    that satisfies its invariant. *)
Lemma Deallocate_cases T (ptr : Z) (w : World) :
  pool_inv w -> is_Some (objects w !! ptr) ->
  (exists i : nat, pages_ (this w) !! i = Some ptr /\ ptr <> 0 /\ (i < 64)%nat /\
     bytes w !! (ptr - 1) = Some (Z.of_nat i) /\
     Deallocate T ptr w = (Done tt, after_release_slot T ptr (Z.of_nat i) w))
  \/
  (bytes w !! (ptr - 1) = Some extendFlag_ /\ is_Some (blocks w !! (ptr - 1)) /\
   Deallocate T ptr w = (Done tt, after_release_extend T ptr w)).
Proof.
  intros Hinv Hobj.
  destruct (inv_object w Hinv ptr Hobj) as [[Hnz [i Hi]]|[Hh Hb]].
  - left. exists i.
    destruct (inv_page w Hinv i ptr Hi Hnz) as [Hb Hh].
    assert (Hlt : (i < 64)%nat)
      by (apply lookup_lt_Some in Hi; rewrite (inv_length w Hinv) in Hi; exact Hi).
    assert (Hbase : ptr - 1 <> 0).
    { intros H0. rewrite H0, (inv_null w Hinv) in Hb. destruct Hb; discriminate. }
    repeat split; try assumption.
    apply Deallocate_slot; try assumption. lia.
  - right.
    assert (Hbase : ptr - 1 <> 0).
    { intros H0. rewrite H0, (inv_null w Hinv) in Hb. destruct Hb; discriminate. }
    repeat split; try assumption.
    apply Deallocate_extend; assumption.
Qed.

Lemma exec_keeps_inv (op : Op) (w w' : World) :
  pool_inv w -> allowed op w -> exec op w = (Done tt, w') -> pool_inv w'.
Proof.
  intros Hinv Hal Hex. destruct op as [T args raw|T ptr]; cbn in Hal, Hex.
  - destruct Hal as [Hpos Hfresh]. rewrite bind_unfold in Hex.
    destruct (Allocate_quiet_cases T args raw w (inv_length w Hinv)) as
      [[_ Hrun]|[(j & _ & Hfc & Hp & Hrun)|(j & p & _ & Hfc & Hp & Hnz & Hrun)]];
      [lia| | |]; rewrite Hrun in Hex; cbn in Hex; injection Hex as <-.
    + apply pool_inv_extend; assumption.
    + destruct (first_clear_Some _ _ _ _ Hfc) as (Hj & _ & _).
      apply pool_inv_claim_fresh; try assumption; lia.
    + destruct (first_clear_Some _ _ _ _ Hfc) as (Hj & _ & _).
      apply pool_inv_claim_reuse; try assumption; lia.
  - destruct (Deallocate_cases T ptr w Hinv Hal) as
      [(i & Hi & Hnz & _ & _ & Hrun)|(Hh & _ & Hrun)];
      rewrite Hrun in Hex; injection Hex as <-.
    + apply pool_inv_dealloc_slot; assumption.
    + apply pool_inv_dealloc_extend; assumption.
Qed.

Lemma reachable_inv (pageSize : Z) (w : World) :
  reachable pageSize w -> pool_inv w.
Proof.
  induction 1 as [|w w' op _ IH Hal Hex].
  - apply pool_inv_fresh.
  - exact (exec_keeps_inv op w w' IH Hal Hex).
Qed.

(** Every allowed call on a reachable world returns. *)
Lemma exec_returns (op : Op) (w : World) :
  pool_inv w -> allowed op w -> exists w', exec op w = (Done tt, w').
Proof.
  intros Hinv Hal. destruct op as [T args raw|T ptr]; cbn in Hal |- *.
  - destruct Hal as [Hpos Hfresh]. rewrite bind_unfold.
    destruct (Allocate_quiet_cases T args raw w (inv_length w Hinv)) as
      [[_ Hrun]|[(j & _ & _ & _ & Hrun)|(j & p & _ & _ & _ & _ & Hrun)]];
      [lia| | |]; rewrite Hrun; cbn; eauto.
  - destruct (Deallocate_cases T ptr w Hinv Hal) as
      [(i & _ & _ & _ & _ & Hrun)|(_ & _ & Hrun)]; rewrite Hrun; eauto.
Qed.

(** ** The scan under interference *)

Lemma interfere_run (e : option Z) (w : World) :
  interfere e w =
  (Done tt, match e with None => w | Some v => with_bits (to_size_t v) w end).
Proof. destruct e; reflexivity. Qed.

(** A property of every way the loop can end holds of the loop; [I] is
    what is known of the world and survives writes to [bits_]. *)
Lemma Allocate_loop_post (I : World -> Prop) (P : Outcome (option Z) * World -> Prop)
    T args raw :
  (forall b w, I w -> I (with_bits b w)) ->
  (forall w, I w -> P (Done None, w)) ->
  (forall w, P (Crash Livelock, w)) ->
  (forall j w, I w -> 0 <= j < 64 ->
     P ((let* q := Allocate_claimed T args raw j in ret (Some q)) w)) ->
  forall fuel env i bit w, 0 <= i -> I w ->
    P (Allocate_loop fuel T args env raw i bit w).
Proof.
  intros Hbits Hnone Hlive Hclaim.
  assert (Hint : forall e w, I w ->
            I (match e with None => w | Some v => with_bits (to_size_t v) w end)).
  { intros [v|] w Hw; [apply Hbits|]; exact Hw. }
  induction fuel as [|fuel IH]; intros env i bit w Hi Hw; cbn [Allocate_loop].
  - apply Hlive.
  - destruct (Z.leb_spec 64 i) as [Hge|Hlt]; [apply Hnone; exact Hw|].
    destruct (Z.land bit (Z.shiftl 1 i) =? 0); [|apply IH; [lia|exact Hw]].
    destruct (next_env env) as [e env1].
    rewrite bind_unfold. unfold bits_compare_exchange_strong at 1.
    rewrite bind_unfold, interfere_run.
    pose proof (Hint e w Hw) as Hw1.
    set (w1 := match e with None => w | Some v => with_bits (to_size_t v) w end) in *.
    destruct (bits_ (this w1) =? bit).
    + apply Hclaim; [apply Hbits; exact Hw1|lia].
    + destruct (next_env env1) as [e' env2].
      rewrite bind_unfold. unfold bits_load at 1.
      rewrite bind_unfold, interfere_run.
      pose proof (Hint e' w1 Hw1) as Hw2.
      set (w2 := match e' with None => w1 | Some v => with_bits (to_size_t v) w1 end) in *.
      destruct (Z.land (bits_ (this w2)) (Z.shiftl 1 i) =? 0);
        apply IH; (lia || exact Hw2).
Qed.

Lemma Allocate_claimed_faults T args raw (i : Z) (w : World) :
  forall f, fst (Allocate_claimed T args raw i w) = Crash f ->
  f = OutOfBounds \/ (f = NullDereference /\ raw = 0).
Proof.
  intros f. unfold Allocate_claimed, page_at, set_page, get_pageSize, malloc, store8,
    placement_new, ret.
  rewrite !bind_unfold.
  repeat (cbn;
    match goal with
    | |- context [if ?c then _ else _] => destruct c eqn:?
    | |- context [match ?l !! ?k with _ => _ end] => destruct (l !! k) eqn:?
    | |- context [bind _ _ _] => rewrite bind_unfold
    end); cbn; intros H; try discriminate;
    try (injection H as <-; auto; fail).
  all: injection H as <-; right; split; [reflexivity|lia].
Qed.

(** The step budget [Allocate] gives the loop is never used up: a
    compare-exchange only fails after another thread has written [bits_]. *)
Lemma Allocate_loop_total T args raw (fuel : nat) (env : list (option Z)) (i : Z) (w : World) :
  0 <= i <= 64 -> (Z.to_nat (64 - i) + length env < fuel)%nat ->
  fst (Allocate_loop fuel T args env raw i (bits_ (this w)) w) <> Crash Livelock.
Proof.
  revert env i w. induction fuel as [|fuel IH]; intros env i w Hi Hf; [lia|].
  cbn [Allocate_loop].
  destruct (Z.leb_spec 64 i) as [Hge|Hlt]; [discriminate|].
  destruct (Z.land (bits_ (this w)) (Z.shiftl 1 i) =? 0); [|apply IH; lia].
  destruct env as [|[v|] env1]; cbn [next_env].
  - rewrite bind_unfold. unfold bits_compare_exchange_strong at 1.
    rewrite bind_unfold. cbn [interfere]. rewrite Z.eqb_refl.
    rewrite bind_unfold.
    destruct (Allocate_claimed _ _ _ _ _) as [[q|f] w'] eqn:Hc; [discriminate|].
    destruct (Allocate_claimed_faults T args raw i _ f (f_equal fst Hc)) as [->|[-> _]];
      discriminate.
  - rewrite bind_unfold. unfold bits_compare_exchange_strong at 1.
    rewrite bind_unfold. cbn [interfere].
    destruct (_ =? _).
    + rewrite bind_unfold.
      destruct (Allocate_claimed _ _ _ _ _) as [[q|f] w'] eqn:Hc; [discriminate|].
      destruct (Allocate_claimed_faults T args raw i _ f (f_equal fst Hc)) as [->|[-> _]];
        discriminate.
    + cbn [length] in Hf.
      destruct env1 as [|e' env2]; cbn [next_env];
        rewrite bind_unfold; unfold bits_load at 1; rewrite bind_unfold.
      * cbn [interfere].
        match goal with |- context [bits_ (this ?w1)] => set (w1' := w1) end.
        destruct (_ =? 0);
          apply (IH [] _ w1'); cbn [length]; lia.
      * destruct (interfere e' _) as [[[]|f] w2] eqn:Hint2.
        2:{ destruct e'; discriminate. }
        cbn [length] in Hf.
        destruct (_ =? 0); apply (IH env2 _ w2); lia.
  - rewrite bind_unfold. unfold bits_compare_exchange_strong at 1.
    rewrite bind_unfold. cbn [interfere]. rewrite Z.eqb_refl.
    rewrite bind_unfold.
    destruct (Allocate_claimed _ _ _ _ _) as [[q|f] w'] eqn:Hc; [discriminate|].
    destruct (Allocate_claimed_faults T args raw i _ f (f_equal fst Hc)) as [->|[-> _]];
      discriminate.
Qed.

Lemma bind_done_inv {A B} (m : M A) (k : A -> M B) (w w' : World) (b : B) :
  bind m k w = (Done b, w') ->
  exists a w1, m w = (Done a, w1) /\ k a w1 = (Done b, w').
Proof.
  rewrite bind_unfold. destruct (m w) as [[a|f] w1]; [eauto|discriminate].
Qed.

Lemma bind_crash_inv {A B} (m : M A) (k : A -> M B) (w : World) (f : Fault) :
  fst (bind m k w) = Crash f ->
  fst (m w) = Crash f \/ exists a w1, m w = (Done a, w1) /\ fst (k a w1) = Crash f.
Proof.
  rewrite bind_unfold. destruct (m w) as [[a|f'] w1]; intros H.
  - right. exists a, w1. split; [reflexivity|exact H].
  - left. cbn in H. injection H as ->. reflexivity.
Qed.

Lemma AllocateExtend_faults T args raw (w : World) (f : Fault) :
  fst (AllocateExtend T args raw w) = Crash f -> f = NullDereference /\ raw = 0.
Proof.
  destruct (Z.eq_dec raw 0) as [->|Hnz].
  - rewrite AllocateExtend_null. cbn. intros H. injection H as <-. auto.
  - rewrite AllocateExtend_ok by exact Hnz. discriminate.
Qed.

(** [Allocate] returns or faults within its step budget, whatever the
    other threads do. *)
Lemma Allocate_total T args env raw (w : World) :
  fst (Allocate T args env raw w) <> Crash Livelock.
Proof.
  unfold Allocate. rewrite bind_unfold. cbn [get_pageSize].
  destruct (_ <? _).
  { intros H. apply AllocateExtend_faults in H. destruct H; discriminate. }
  destruct (next_env env) as [e env1].
  rewrite bind_unfold. unfold bits_load at 1. rewrite bind_unfold.
  destruct (interfere e w) as [[[]|f] w1] eqn:Hint.
  2:{ destruct e; discriminate. }
  rewrite bind_unfold.
  assert (Htot : fst (Allocate_loop (65 + length env1) T args env1 raw 0
                        (bits_ (this w1)) w1) <> Crash Livelock)
    by (apply Allocate_loop_total; lia).
  destruct (Allocate_loop _ _ _ _ _ _ _ _) as [[[p|]|f] w2].
  - discriminate.
  - intros H. apply AllocateExtend_faults in H. destruct H; discriminate.
  - intros H. apply Htot. cbn [fst] in H |- *. injection H as ->. reflexivity.
Qed.

Lemma placement_new_post T args (p q : Z) (w w' : World) :
  placement_new p T args w = (Done q, w') ->
  q = p /\
  objects w' !! q = Some {| obj_type := T; obj_repr := ctor T args |} /\
  trace w' = EvConstruct q T args :: trace w.
Proof.
  unfold placement_new. intros H. injection H as <- <-. cbn.
  rewrite lookup_insert_eq. auto.
Qed.

Lemma Allocate_claimed_post T args raw (i q : Z) (w w' : World) :
  Allocate_claimed T args raw i w = (Done q, w') ->
  objects w' !! q = Some {| obj_type := T; obj_repr := ctor T args |} /\
  exists evs, trace w' = EvConstruct q T args :: evs.
Proof.
  unfold Allocate_claimed. intros H.
  apply bind_done_inv in H. destruct H as (p0 & w1 & _ & H).
  apply bind_done_inv in H. destruct H as ([] & w2 & _ & H).
  apply bind_done_inv in H. destruct H as (p & w3 & _ & H).
  apply placement_new_post in H. destruct H as (_ & Ho & Ht). eauto.
Qed.

Lemma AllocateExtend_post T args raw (q : Z) (w w' : World) :
  AllocateExtend T args raw w = (Done q, w') ->
  objects w' !! q = Some {| obj_type := T; obj_repr := ctor T args |} /\
  exists evs, trace w' = EvConstruct q T args :: evs.
Proof.
  unfold AllocateExtend. intros H.
  apply bind_done_inv in H. destruct H as (p0 & w1 & _ & H).
  apply bind_done_inv in H. destruct H as ([] & w2 & _ & H).
  apply placement_new_post in H. destruct H as (_ & Ho & Ht). eauto.
Qed.

Lemma Allocate_post T args env raw (q : Z) (w w' : World) :
  Allocate T args env raw w = (Done q, w') ->
  objects w' !! q = Some {| obj_type := T; obj_repr := ctor T args |} /\
  exists evs, trace w' = EvConstruct q T args :: evs.
Proof.
  unfold Allocate. intros H.
  apply bind_done_inv in H. destruct H as (ps & w0 & _ & H).
  destruct (_ <? _); [exact (AllocateExtend_post _ _ _ _ _ _ H)|].
  destruct (next_env env) as [e env1].
  apply bind_done_inv in H. destruct H as (bit & w1 & _ & H).
  apply bind_done_inv in H. destruct H as (r & w2 & Hloop & H).
  destruct r as [p|]; [|exact (AllocateExtend_post _ _ _ _ _ _ H)].
  injection H as <- <-.
  revert Hloop.
  apply (Allocate_loop_post (fun _ => True)
           (fun r => r = (Done (Some p), w2) ->
              objects w2 !! p = Some {| obj_type := T; obj_repr := ctor T args |} /\
              exists evs, trace w2 = EvConstruct p T args :: evs) T args raw);
    [auto|discriminate|discriminate| |lia|exact I].
  intros j w3 _ _ Hc.
  apply bind_done_inv in Hc. destruct Hc as (q & w4 & Hc & Hr).
  injection Hr as -> ->. exact (Allocate_claimed_post _ _ _ _ _ _ _ Hc).
Qed.

Lemma Allocate_null_only_if T args env raw (w : World) :
  fst (Allocate T args env raw w) = Crash NullDereference -> raw = 0.
Proof.
  unfold Allocate. intros H.
  apply bind_crash_inv in H. destruct H as [H|(ps & w0 & _ & H)]; [discriminate|].
  destruct (_ <? _); [exact (proj2 (AllocateExtend_faults _ _ _ _ _ H))|].
  destruct (next_env env) as [e env1].
  apply bind_crash_inv in H. destruct H as [H|(bit & w1 & _ & H)].
  { unfold bits_load in H. rewrite bind_unfold in H.
    destruct (interfere e w0) as [[[]|f] w1] eqn:Hint; [discriminate|].
    destruct e; discriminate. }
  apply bind_crash_inv in H. destruct H as [H|(r & w2 & Hloop & H)].
  - revert H.
    apply (Allocate_loop_post (fun _ => True)
             (fun r => fst r = Crash NullDereference -> raw = 0) T args raw);
      [auto|discriminate|discriminate| |lia|exact I].
    intros j w3 _ _ Hc.
    apply bind_crash_inv in Hc. destruct Hc as [Hc|(q & w4 & _ & Hc)]; [|discriminate].
    destruct (Allocate_claimed_faults _ _ _ _ _ _ Hc) as [Hf|[_ Hz]];
      [discriminate|exact Hz].
  - destruct r as [p|]; [discriminate|].
    exact (proj2 (AllocateExtend_faults _ _ _ _ _ H)).
Qed.

(** ** What the scan has seen when it gives up *)





(** ** Which path a quiet [Allocate] takes *)

Lemma calls_since_app (w w' : World) (evs : list Event) :
  trace w' = evs ++ trace w -> calls_since w w' = evs.
Proof.
  intros H. unfold calls_since. rewrite H, length_app.
  replace (length evs + length (trace w) - length (trace w))%nat
    with (length evs) by lia.
  apply take_app_length.
Qed.

Lemma took_overflow_quiet T args raw (w : World) :
  length (pages_ (this w)) = 64%nat ->
  took_overflow w (snd (Allocate T args [] raw w)) =
  too_big T w || match first_clear 64 0 (bits_ (this w)) with
                 | Some _ => false
                 | None => true
                 end.
Proof.
  intros Hlen.
  assert (Hext : took_overflow w (snd (AllocateExtend T args raw w)) = true).
  { unfold took_overflow. destruct (Z.eq_dec raw 0) as [->|Hnz].
    - rewrite AllocateExtend_null.
      erewrite (calls_since_app _ _ [_]); [|reflexivity]. reflexivity.
    - rewrite AllocateExtend_ok by exact Hnz.
      erewrite (calls_since_app _ _ [_; _]); [|reflexivity]. reflexivity. }
  rewrite Allocate_quiet. fold (too_big T w).
  destruct (too_big T w); [exact Hext|]. cbn [orb].
  destruct (first_clear 64 0 (bits_ (this w))) as [j|] eqn:Hfc; [|exact Hext].
  destruct (first_clear_Some _ _ _ _ Hfc) as (Hj & _ & _).
  destruct (slot_has_page w j Hlen) as [p Hp]; [lia|].
  unfold took_overflow.
  destruct (Z.eq_dec p 0) as [->|Hnz]; [destruct (Z.eq_dec raw 0) as [->|Hraw]|].
  - rewrite Allocate_claimed_null_run by (try lia; exact Hp).
    erewrite (calls_since_app _ _ [_]); [|reflexivity]. reflexivity.
  - rewrite Allocate_claimed_fresh by (try lia; try exact Hraw; exact Hp).
    erewrite (calls_since_app _ _ [_; _]); [|reflexivity]. reflexivity.
  - rewrite (Allocate_claimed_reuse T args raw j p) by (try lia; try exact Hnz; exact Hp).
    erewrite (calls_since_app _ _ [_]); [|reflexivity]. reflexivity.
Qed.




Lemma testbit_above (b k : Z) : 0 <= b < 2 ^ 64 -> 64 <= k -> Z.testbit b k = false.
Proof.
  intros Hb Hk. destruct (Z.eq_dec b 0) as [->|Hnz]; [apply Z.bits_0|].
  apply Z.bits_above_log2; [lia|].
  assert (Z.log2 b < 64) by (apply Z.log2_lt_pow2; lia). lia.
Qed.

(** ** [Deallocate] *)

(** C2: on a pointer that [Allocate] of this pool returned and that was not
    deallocated since, [Deallocate<T>] first runs the destructor; if the
    header byte in front of the pointer is 0xFF it then frees the block that
    starts at the header; otherwise the header [h] is a slot index, bit [h]
    of [bits_] is cleared, and no block is freed. *)
Theorem Deallocate_by_header (pageSize : Z) (w : World) T (ptr : Z) :
  reachable pageSize w -> is_Some (objects w !! ptr) ->
  exists h, bytes w !! (ptr - 1) = Some h /\
    if h =? extendFlag_
    then
      is_Some (blocks w !! (ptr - 1)) /\
      Deallocate T ptr w =
      (Done tt,
       {| this := this w;
          blocks := delete (ptr - 1) (blocks w);
          bytes := delete (ptr - 1) (bytes w);
          objects := delete ptr (objects w);
          trace := EvFree (ptr - 1) :: EvDestruct ptr T :: trace w |})
    else
      0 <= h < 64 /\ pages_ (this w) !! Z.to_nat h = Some ptr /\
      Z.testbit (Z.land (bits_ (this w)) (not64 (Z.shiftl 1 h))) h = false /\
      Deallocate T ptr w =
      (Done tt,
       {| this := {| pageSize_ := pageSize_ (this w);
                     bits_ := Z.land (bits_ (this w)) (not64 (Z.shiftl 1 h));
                     pages_ := pages_ (this w) |};
          blocks := blocks w;
          bytes := bytes w;
          objects := delete ptr (objects w);
          trace := EvDestruct ptr T :: trace w |}).
Proof.
  intros Hreach Hobj. pose proof (reachable_inv pageSize w Hreach) as Hinv.
  destruct (Deallocate_cases T ptr w Hinv Hobj) as
    [(i & Hi & Hnz & Hlt & Hh & Hrun)|(Hh & Hb & Hrun)].
  - exists (Z.of_nat i). split; [exact Hh|].
    destruct (Z.eqb_spec (Z.of_nat i) extendFlag_) as [He|_];
      [unfold extendFlag_ in He; lia|].
    rewrite Nat2Z.id. repeat split; try lia; try assumption.
    rewrite testbit_clear, Z.eqb_refl by lia. apply andb_false_r.
  - exists extendFlag_. split; [exact Hh|]. rewrite Z.eqb_refl. auto.
Qed.

(** C10: [Deallocate] of a slot pointer with header [h] changes bit [h] of
    [bits_] and nothing else of the pool: every other bit, every entry of
    [pages_] and [pageSize_] stay; [Deallocate] of an overflow pointer
    leaves [bits_] and [pages_] as they were. *)
Theorem Deallocate_frame (pageSize : Z) (w : World) T (ptr : Z) :
  reachable pageSize w -> is_Some (objects w !! ptr) ->
  exists h w', bytes w !! (ptr - 1) = Some h /\
    Deallocate T ptr w = (Done tt, w') /\
    pageSize_ (this w') = pageSize_ (this w) /\
    pages_ (this w') = pages_ (this w) /\
    (h = extendFlag_ -> bits_ (this w') = bits_ (this w)) /\
    (h <> extendFlag_ ->
     0 <= h < 64 /\
     forall k, k <> h ->
       Z.testbit (bits_ (this w')) k = Z.testbit (bits_ (this w)) k).
Proof.
  intros Hreach Hobj. pose proof (reachable_inv pageSize w Hreach) as Hinv.
  destruct (Deallocate_cases T ptr w Hinv Hobj) as
    [(i & Hi & Hnz & Hlt & Hh & Hrun)|(Hh & Hb & Hrun)].
  - exists (Z.of_nat i), (after_release_slot T ptr (Z.of_nat i) w).
    repeat split; try assumption; try reflexivity; try lia.
    + intros He. unfold extendFlag_ in He. lia.
    + intros k Hk. cbn.
      destruct (Z.ltb_spec k 0) as [Hneg|Hpos].
      { rewrite !Z.testbit_neg_r by lia. reflexivity. }
      destruct (Z.ltb_spec k 64) as [Hlow|Hhigh].
      * rewrite testbit_clear by lia.
        replace (Z.of_nat i =? k) with false by (symmetry; apply Z.eqb_neq; lia).
        apply andb_true_r.
      * rewrite Z.land_spec, (testbit_above (bits_ (this w)) k) by
          (try lia; apply (inv_bits w Hinv)). reflexivity.
  - exists extendFlag_, (after_release_extend T ptr w).
    repeat split; try assumption; try reflexivity; try congruence.
Qed.

(** ** The occupancy invariant *)

(** C3: after any sequence of [Allocate] and [Deallocate] calls on a fresh
    pool, bit [i] of [bits_] is set exactly when an object that was
    constructed and not yet destructed lives at [pages_[i]]; an [Allocate]
    served from a slot sets the one bit it claimed and constructs the object
    there, and a [Deallocate] of a slot pointer destructs the object and
    clears that slot's bit. *)
Theorem occupancy_tracks_live_objects (pageSize : Z) (w : World) :
  reachable pageSize w ->
  (forall i, 0 <= i < 64 ->
     (Z.testbit (bits_ (this w)) i = true <->
      exists p, pages_ (this w) !! Z.to_nat i = Some p /\ p <> 0 /\
                is_Some (objects w !! p)))
  /\
  (forall T args raw p w',
     allowed (OpAllocate T args raw) w ->
     Allocate T args [] raw w = (Done p, w') ->
     took_overflow w w' = false ->
     exists j, 0 <= j < 64 /\
       pages_ (this w') !! Z.to_nat j = Some p /\
       Z.testbit (bits_ (this w)) j = false /\
       bits_ (this w') = Z.lor (bits_ (this w)) (Z.shiftl 1 j) /\
       objects w' = <[p := {| obj_type := T; obj_repr := ctor T args |}]> (objects w))
  /\
  (forall T ptr h w',
     is_Some (objects w !! ptr) ->
     bytes w !! (ptr - 1) = Some h -> h <> extendFlag_ ->
     Deallocate T ptr w = (Done tt, w') ->
     pages_ (this w) !! Z.to_nat h = Some ptr /\
     bits_ (this w') = Z.land (bits_ (this w)) (not64 (Z.shiftl 1 h)) /\
     objects w' = delete ptr (objects w)).
Proof.
  intros Hreach. pose proof (reachable_inv pageSize w Hreach) as Hinv.
  split; [|split].
  - intros i Hi.
    destruct (slot_has_page w i (inv_length w Hinv) Hi) as [p Hp].
    pose proof (inv_occupancy w Hinv (Z.to_nat i) p Hp) as Hocc.
    rewrite Z2Nat.id in Hocc by lia. rewrite Hocc. split.
    + intros [Hnz Ho]. exists p. auto.
    + intros (q & Hq & Hnz & Ho). rewrite Hp in Hq. injection Hq as <-. auto.
  - intros T args raw p w' [Hpos Hfresh] Hrun Hslot.
    pose proof (took_overflow_quiet T args raw w (inv_length w Hinv)) as Hov.
    rewrite Hrun in Hov. cbn [snd] in Hov. rewrite Hslot in Hov.
    destruct (Allocate_quiet_cases T args raw w (inv_length w Hinv)) as
      [[Hext _]|[(j & _ & Hfc & Hp & Hrun')|(j & q & _ & Hfc & Hp & Hnz & Hrun')]];
      [lia| | |].
    + exfalso. destruct Hext as [Hb|Hn]; [rewrite Hb in Hov|rewrite Hn, orb_true_r in Hov];
        discriminate.
    + rewrite Hrun' in Hrun. injection Hrun as <- <-.
      destruct (first_clear_Some _ _ _ _ Hfc) as (Hj & Hbit & _).
      exists j. cbn. repeat split; try lia; try assumption.
      apply list_lookup_insert_eq. rewrite (inv_length w Hinv). lia.
    + rewrite Hrun' in Hrun. injection Hrun as <- <-.
      destruct (first_clear_Some _ _ _ _ Hfc) as (Hj & Hbit & _).
      exists j. cbn. repeat split; try lia; assumption.
  - intros T ptr h w' Hobj Hh Hne Hrun.
    destruct (Deallocate_cases T ptr w Hinv Hobj) as
      [(i & Hi & Hnz & Hlt & Hh' & Hrun')|(Hh' & _ & _)]; [|congruence].
    rewrite Hh in Hh'. injection Hh' as ->.
    rewrite Hrun' in Hrun. injection Hrun as <-.
    rewrite Nat2Z.id. cbn. auto.
Qed.

(** ** Slot reuse *)

Lemma first_clear_ext (n : nat) (i b b' : Z) :
  (forall k, i <= k < i + Z.of_nat n -> Z.testbit b k = Z.testbit b' k) ->
  first_clear n i b = first_clear n i b'.
Proof.
  revert i. induction n as [|n IH]; intros i H; cbn [first_clear]; [reflexivity|].
  rewrite <- (H i) by lia. destruct (Z.testbit b i); [|reflexivity].
  apply IH. intros k Hk. apply H. lia.
Qed.

(** C4: if a first [Allocate<T>] claimed slot [i] and created its page
    (so [sizeof(T)] did not exceed [pageSize_]), then [Deallocate] of the
    returned pointer followed at once by a second [Allocate<T>] returns the
    same address, and the second call makes no call to the raw allocator:
    it only runs the constructor. *)
Theorem slot_reuse_same_address T args1 args2 raw1 raw2 (i : nat) (p1 : Z) (w w1 : World) :
  length (pages_ (this w)) = 64%nat ->
  raw1 <> 0 ->
  Allocate T args1 [] raw1 w = (Done p1, w1) ->
  pages_ (this w) !! i = Some 0 ->
  pages_ (this w1) !! i = Some p1 ->
  p1 <> 0 ->
  exists w2 w3,
    Deallocate T p1 w1 = (Done tt, w2) /\
    Allocate T args2 [] raw2 w2 = (Done p1, w3) /\
    calls_since w2 w3 = [EvConstruct p1 T args2] /\
    blocks w3 = blocks w1 /\
    pages_ (this w3) = pages_ (this w1).
Proof.
  intros Hlen Hraw Hrun Hp0 Hp1 Hnz.
  destruct (Allocate_quiet_cases T args1 raw1 w Hlen Hraw) as
    [[_ Hrun']|[(j & Hsmall & Hfc & Hp & Hrun')|(j & q & _ & Hfc & Hp & Hqz & Hrun')]];
    rewrite Hrun' in Hrun; injection Hrun as <- <-; cbn in Hp1.
  - congruence.
  - destruct (first_clear_Some _ _ _ _ Hfc) as (Hj & Hbit & _).
    assert (Hij : i = Z.to_nat j).
    { destruct (Nat.eq_dec i (Z.to_nat j)) as [->|Hne]; [reflexivity|].
      rewrite list_lookup_insert_ne in Hp1 by congruence. congruence. }
    subst i. clear Hp1.
    set (w1 := after_claim_fresh T args1 raw1 j w).
    assert (Hdealloc : Deallocate T (raw1 + 1) w1 =
                       (Done tt, after_release_slot T (raw1 + 1) j w1)).
    { apply Deallocate_slot.
      - cbn. rewrite lookup_insert_eq. eauto.
      - lia.
      - cbn. replace (raw1 + 1 - 1) with raw1 by lia.
        rewrite lookup_insert_eq, to_uint8_slot by lia. reflexivity.
      - lia. }
    set (w2 := after_release_slot T (raw1 + 1) j w1) in *.
    assert (Hfc2 : first_clear 64 0 (bits_ (this w2)) = Some j).
    { rewrite <- Hfc. apply first_clear_ext. intros k Hk. cbn.
      rewrite testbit_clear, testbit_set by lia.
      destruct (Z.eqb_spec j k) as [<-|_].
      - rewrite Hbit. reflexivity.
      - rewrite orb_false_r, andb_true_r. reflexivity. }
    assert (Hp2 : pages_ (this w2) !! Z.to_nat j = Some (raw1 + 1)).
    { cbn. apply list_lookup_insert_eq. lia. }
    exists w2, (after_claim_reuse T args2 j (raw1 + 1) w2).
    split; [exact Hdealloc|]. split; [|split; [|split]].
    + rewrite Allocate_quiet. fold (too_big T w2).
      change (too_big T w2) with (too_big T w). rewrite Hsmall, Hfc2.
      rewrite (Allocate_claimed_reuse T args2 raw2 j (raw1 + 1)) by
        (try lia; exact Hp2).
      reflexivity.
    + apply calls_since_app. reflexivity.
    + reflexivity.
    + reflexivity.
  - congruence.
Qed.

(** ** Teardown *)

Lemma elem_of_page_bases (ps : list Z) (r : Z) :
  r ∈ page_bases ps <->
  exists (k : nat) (p : Z), ps !! k = Some p /\ p <> 0 /\ r = p - 1.
Proof.
  induction ps as [|p ps IH]; cbn [page_bases].
  - split; [intros H; inversion H|intros (k & p & H & _); discriminate].
  - destruct (Z.eqb_spec p 0) as [->|Hnz].
    + rewrite IH. split.
      * intros (k & q & Hq & Hqz & ->). exists (S k), q. auto.
      * intros (k & q & Hq & Hqz & ->). destruct k as [|k].
        -- cbn in Hq. congruence.
        -- exists k, q. auto.
    + rewrite elem_of_cons, IH. split.
      * intros [->|(k & q & Hq & Hqz & ->)].
        -- exists 0%nat, p. auto.
        -- exists (S k), q. auto.
      * intros (k & q & Hq & Hqz & ->). destruct k as [|k].
        -- cbn in Hq. injection Hq as ->. left. reflexivity.
        -- right. exists k, q. auto.
Qed.

Lemma page_bases_NoDup (ps : list Z) :
  (forall (k k' : nat) (p : Z), ps !! k = Some p -> ps !! k' = Some p -> p <> 0 -> k = k') ->
  NoDup (page_bases ps).
Proof.
  induction ps as [|p ps IH]; intros Hinj; cbn [page_bases]; [constructor|].
  assert (Htail : forall (k k' : nat) (q : Z),
             ps !! k = Some q -> ps !! k' = Some q -> q <> 0 -> k = k').
  { intros k k' q Hk Hk' Hq. pose proof (Hinj (S k) (S k') q Hk Hk' Hq). lia. }
  destruct (Z.eqb_spec p 0) as [->|Hnz]; [exact (IH Htail)|].
  apply NoDup_cons. split; [|exact (IH Htail)].
  rewrite elem_of_page_bases. intros (k & q & Hq & Hqz & Heq).
  assert (q = p) by lia. subst q.
  pose proof (Hinj 0%nat (S k) p eq_refl Hq Hnz). lia.
Qed.

Lemma destroy_loop_run (n i : nat) (w : World) :
  length (pages_ (this w)) = 64%nat -> (i + n = 64)%nat ->
  (forall (k : nat) (p : Z), (i <= k)%nat -> pages_ (this w) !! k = Some p -> p <> 0 ->
     is_Some (blocks w !! (p - 1))) ->
  (forall (k k' : nat) (p : Z),
     pages_ (this w) !! k = Some p -> pages_ (this w) !! k' = Some p -> p <> 0 -> k = k') ->
  exists w',
    destroy_loop n (Z.of_nat i) w = (Done tt, w') /\
    trace w' = rev (EvFree <$> page_bases (drop i (pages_ (this w)))) ++ trace w /\
    this w' = this w /\ objects w' = objects w.
Proof.
  revert i w. induction n as [|n IH]; intros i w Hlen Hin Hlive Hinj.
  - exists w. rewrite drop_ge by lia. cbn. auto.
  - destruct (lookup_lt_is_Some_2 (pages_ (this w)) i) as [p Hp]; [lia|].
    cbn [destroy_loop]. rewrite bind_unfold.
    rewrite (page_at_ok (Z.of_nat i) p) by (rewrite ?Nat2Z.id; try lia; exact Hp).
    rewrite (drop_S _ _ _ Hp). cbn [page_bases].
    replace (Z.of_nat i + 1) with (Z.of_nat (S i)) by lia.
    destruct (Z.eqb_spec p 0) as [->|Hnz].
    + rewrite bind_unfold. cbn [ret].
      apply (IH (S i) w); try assumption; [lia|].
      intros k q Hk. apply Hlive. lia.
    + destruct (Hlive i p (le_n i) Hp Hnz) as [sz Hb].
      rewrite bind_unfold. unfold free at 1. rewrite Hb.
      match goal with |- context [destroy_loop n _ ?w1] => set (w1' := w1) end.
      destruct (IH (S i) w1') as (w' & Hrun & Htr & Hthis & Hobj).
      * exact Hlen.
      * lia.
      * intros k q Hk Hq Hqz. cbn.
        rewrite lookup_delete_ne; [apply (Hlive k q); [lia|exact Hq|exact Hqz]|].
        intros Heq. assert (q = p) by lia. subst q.
        pose proof (Hinj i k p Hp Hq Hnz). lia.
      * exact Hinj.
      * exists w'. split; [exact Hrun|]. split; [|split; assumption].
        rewrite Htr. cbn. rewrite <- app_assoc. reflexivity.
Qed.

(** C5: on a pool reached by any sequence of [Allocate] and [Deallocate]
    calls, the destructor of the pool returns after freeing one block for
    each slot of [pages_] that holds a page, and these blocks are, each
    once, the ones [std::malloc] returned for pages; it calls no object's
    destructor, whatever [bits_] says: the objects stay as they were. *)
Theorem destroy_frees_each_page_once (pageSize : Z) (w : World) :
  reachable pageSize w ->
  exists w',
    MemoryPool_destroy w = (Done tt, w') /\
    calls_since w w' = rev (EvFree <$> page_bases (pages_ (this w))) /\
    NoDup (page_bases (pages_ (this w))) /\
    (forall r, r ∈ page_bases (pages_ (this w)) <-> exists s, In (EvMalloc s r) (trace w)) /\
    (forall e, In e (calls_since w w') -> is_destruct e = false) /\
    objects w' = objects w /\ bits_ (this w') = bits_ (this w).
Proof.
  intros Hreach. pose proof (reachable_inv pageSize w Hreach) as Hinv.
  destruct (destroy_loop_run 64 0 w (inv_length w Hinv) eq_refl) as
    (w' & Hrun & Htr & Hthis & Hobj).
  - intros k p _ Hp Hnz. apply (inv_page w Hinv k p Hp Hnz).
  - intros k k' p. apply (pages_distinct w Hinv k k' p).
  - rewrite drop_0 in Htr.
    assert (Hcalls : calls_since w w' = rev (EvFree <$> page_bases (pages_ (this w))))
      by (apply calls_since_app; exact Htr).
    exists w'. split; [exact Hrun|]. split; [exact Hcalls|].
    split; [|split; [|split; [|split]]].
    + apply page_bases_NoDup. intros k k' p. apply (pages_distinct w Hinv k k' p).
    + intros r. rewrite elem_of_page_bases. symmetry. apply (inv_history w Hinv).
    + intros e He. rewrite Hcalls in He. apply in_rev in He.
      apply list_elem_of_In in He. apply list_elem_of_fmap in He.
      destruct He as (r & -> & _). reflexivity.
    + exact Hobj.
    + rewrite Hthis. reflexivity.
Qed.

(** ** Alignment of what the pool returns *)

Lemma one_past_aligned (a r : Z) :
  1 < a -> r mod a = 0 -> (r + 1) mod a = 1.
Proof.
  intros Ha Hr. rewrite Z.add_mod, Hr, Z.add_0_l by lia.
  rewrite Z.mod_mod by lia. apply Z.mod_small. lia.
Qed.

(** The layout of an overflow allocation, whenever the allocator succeeds:
    a block of [sizeof(T) + 1] bytes is requested at alignment
    [alignof(T)], its first byte becomes 0xFF, the object is constructed one
    byte further and that address is returned. *)
Lemma AllocateExtend_layout T args raw (w : World) :
  raw <> 0 ->
  exists w',
    AllocateExtend T args raw w = (Done (raw + 1), w') /\
    calls_since w w' =
      [EvConstruct (raw + 1) T args;
       EvAlignedAlloc (alignof T) (to_size_t (sizeof T + 1)) raw] /\
    bytes w' !! raw = Some 255 /\
    (forall i, 0 <= i < 64 -> i <> 255) /\
    objects w' !! (raw + 1) = Some {| obj_type := T; obj_repr := ctor T args |} /\
    (1 < alignof T -> raw mod alignof T = 0 -> (raw + 1) mod alignof T = 1).
Proof.
  intros Hraw. exists (after_extend T args raw w).
  split; [apply AllocateExtend_ok; exact Hraw|].
  split; [apply calls_since_app; reflexivity|].
  split; [cbn; apply lookup_insert_eq|].
  split; [intros i Hi; lia|].
  split; [cbn; apply lookup_insert_eq|].
  apply one_past_aligned.
Qed.

(** C6: [Allocate<Big>(7)] on a default pool, [Big] being 1024 bytes with
    alignment 8 and [std::aligned_alloc] answering 8192: the overflow path
    asks for 1025 bytes at alignment 8, writes 0xFF at 8192, constructs the
    object at 8193 and returns 8193, which is not a multiple of 8. *)
Theorem AllocateExtend_returns_misaligned :
  fst (Allocate Big [7] [] 8192 (fresh_world 512)) = Done 8193 /\
  trace (snd (Allocate Big [7] [] 8192 (fresh_world 512))) =
    [EvConstruct 8193 Big [7]; EvAlignedAlloc 8 1025 8192] /\
  bytes (snd (Allocate Big [7] [] 8192 (fresh_world 512))) !! 8192 = Some 255 /\
  8192 mod alignof Big = 0 /\
  8193 mod alignof Big = 1.
Proof.
  rewrite Allocate_quiet.
  change (to_size_t (pageSize_ (this (fresh_world 512))) <? sizeof Big) with true.
  cbn iota. rewrite AllocateExtend_ok by lia.
  repeat split; reflexivity.
Qed.

(** ** Allocator failure *)

Lemma first_clear_lowest (b j : Z) :
  0 <= j < 64 -> Z.testbit b j = false ->
  (forall k, 0 <= k < j -> Z.testbit b k = true) ->
  first_clear 64 0 b = Some j.
Proof.
  intros Hj Hbit Hlow.
  destruct (first_clear 64 0 b) as [j'|] eqn:Hfc.
  - destruct (first_clear_Some _ _ _ _ Hfc) as (Hj' & Hbit' & Hlow').
    f_equal. destruct (Z.lt_trichotomy j' j) as [Hlt|[Heq|Hgt]]; [|exact Heq|].
    + rewrite Hlow in Hbit' by lia. discriminate.
    + rewrite Hlow' in Hbit by lia. discriminate.
  - rewrite first_clear_None in Hfc. rewrite Hfc in Hbit by lia. discriminate.
Qed.

(** C7: [Allocate] uses what the raw allocator returns unchecked.  If the
    allocator answers null, the store of the header byte goes through the
    null pointer, on the overflow path and where a slot's page is first
    created alike; and, whatever other threads do, [Allocate] dereferences
    null only if the allocator answered null. *)
Theorem Allocate_null_unchecked T args (w : World) :
  length (pages_ (this w)) = 64%nat ->
  ((to_size_t (pageSize_ (this w)) < sizeof T \/
    (forall i, 0 <= i < 64 -> Z.testbit (bits_ (this w)) i = true)) ->
   Allocate T args [] 0 w =
   (Crash NullDereference,
    log (EvAlignedAlloc (alignof T) (to_size_t (sizeof T + pageOffset_)) 0) w))
  /\
  (forall j,
     sizeof T <= to_size_t (pageSize_ (this w)) ->
     0 <= j < 64 -> Z.testbit (bits_ (this w)) j = false ->
     (forall k, 0 <= k < j -> Z.testbit (bits_ (this w)) k = true) ->
     pages_ (this w) !! Z.to_nat j = Some 0 ->
     fst (Allocate T args [] 0 w) = Crash NullDereference /\
     calls_since w (snd (Allocate T args [] 0 w)) =
       [EvMalloc (to_size_t (pageSize_ (this w) + pageOffset_)) 0])
  /\
  (forall env raw,
     fst (Allocate T args env raw w) = Crash NullDereference -> raw = 0).
Proof.
  intros Hlen. split; [|split].
  - intros Hcond. rewrite Allocate_quiet.
    destruct (Z.ltb_spec (to_size_t (pageSize_ (this w))) (sizeof T)) as [_|Hge];
      [apply AllocateExtend_null|].
    destruct Hcond as [Hlt|Hall]; [lia|].
    replace (first_clear 64 0 (bits_ (this w))) with (@None Z);
      [apply AllocateExtend_null|].
    symmetry. apply first_clear_None. intros k Hk. apply Hall. lia.
  - intros j Hsz Hj Hbit Hlow Hp. rewrite Allocate_quiet.
    destruct (Z.ltb_spec (to_size_t (pageSize_ (this w))) (sizeof T)) as [Hlt|_]; [lia|].
    rewrite (first_clear_lowest _ j Hj Hbit Hlow).
    rewrite Allocate_claimed_null_run by (try lia; exact Hp).
    split; [reflexivity|]. apply calls_since_app. reflexivity.
  - intros env raw. apply Allocate_null_only_if.
Qed.

(** ** Constructor arguments *)

Lemma Allocate_claimed_returns T args raw (j : Z) (w : World) :
  length (pages_ (this w)) = 64%nat -> 0 <= j < 64 -> raw <> 0 ->
  exists q w', Allocate_claimed T args raw j w = (Done q, w').
Proof.
  intros Hlen Hj Hraw. destruct (slot_has_page w j Hlen Hj) as [p Hp].
  destruct (Z.eq_dec p 0) as [->|Hnz].
  - rewrite Allocate_claimed_fresh by assumption. eauto.
  - rewrite (Allocate_claimed_reuse T args raw j p) by assumption. eauto.
Qed.

(** With its 64 entries in [pages_] and an allocator that succeeds,
    [Allocate] returns, whatever the other threads do. *)
Lemma Allocate_returns T args env raw (w : World) :
  length (pages_ (this w)) = 64%nat -> raw <> 0 ->
  exists p w', Allocate T args env raw w = (Done p, w').
Proof.
  intros Hlen Hraw.
  destruct (Allocate T args env raw w) as [[p|f] w'] eqn:Hrun; [eauto|exfalso].
  pose proof (Allocate_total T args env raw w) as Htot.
  rewrite Hrun in Htot. cbn [fst] in Htot.
  assert (Hf : fst (Allocate T args env raw w) = Crash f) by (rewrite Hrun; reflexivity).
  clear Hrun. unfold Allocate in Hf.
  apply bind_crash_inv in Hf. destruct Hf as [Hf|(ps & w0 & Hget & Hf)]; [discriminate|].
  injection Hget as _ <-.
  destruct (_ <? _); [apply AllocateExtend_faults in Hf; tauto|].
  destruct (next_env env) as [e env1].
  apply bind_crash_inv in Hf. destruct Hf as [Hf|(bit & w1 & Hload & Hf)].
  { unfold bits_load in Hf. rewrite bind_unfold, interfere_run in Hf. discriminate. }
  unfold bits_load in Hload. rewrite bind_unfold, interfere_run in Hload.
  injection Hload as _ <-.
  apply bind_crash_inv in Hf. destruct Hf as [Hf|(r & w2 & _ & Hf)].
  - revert Hf.
    apply (Allocate_loop_post (fun w => length (pages_ (this w)) = 64%nat)
             (fun r => fst r = Crash f -> False) T args raw).
    + intros b w2 H. exact H.
    + discriminate.
    + intros w2 H. apply Htot. cbn in H. congruence.
    + intros j w2 Hlen2 Hj Hc.
      destruct (Allocate_claimed_returns T args raw j w2 Hlen2 Hj Hraw) as (q & w3 & Hq).
      rewrite bind_unfold, Hq in Hc. discriminate.
    + lia.
    + destruct e; exact Hlen.
  - destruct r as [p|]; [discriminate|].
    apply AllocateExtend_faults in Hf. tauto.
Qed.

(** C8: whichever path [Allocate<T>(args...)] takes and whatever other
    threads do, it returns when the allocator succeeds, and when it returns
    [p] the constructor of [T] was its last call, at [p] and with exactly
    [args], and the object living at [p] is the one that constructor builds
    from [args]. *)
Theorem Allocate_forwards_arguments T args env raw (w : World) :
  length (pages_ (this w)) = 64%nat -> raw <> 0 ->
  (exists p w', Allocate T args env raw w = (Done p, w')) /\
  (forall p w', Allocate T args env raw w = (Done p, w') ->
     objects w' !! p = Some {| obj_type := T; obj_repr := ctor T args |} /\
     exists evs, trace w' = EvConstruct p T args :: evs).
Proof.
  intros Hlen Hraw. split.
  - apply Allocate_returns; assumption.
  - intros p w'. apply Allocate_post.
Qed.

(** C9: a pointer served from a slot is the slot's entry of [pages_], and
    that entry is one byte past an address [std::malloc] returned for the
    page; so it is not a multiple of [alignof(T)] when that address is one
    and [alignof(T)] exceeds 1. *)
Theorem slot_pointer_one_past_raw (pageSize : Z) T args raw (w w' : World) (p : Z) :
  reachable pageSize w ->
  allowed (OpAllocate T args raw) w ->
  Allocate T args [] raw w = (Done p, w') ->
  took_overflow w w' = false ->
  (exists (j : nat) (s : Z),
     pages_ (this w') !! j = Some p /\
     In (EvMalloc s (p - 1)) (trace w') /\
     is_Some (blocks w' !! (p - 1)))
  /\
  (1 < alignof T -> (p - 1) mod alignof T = 0 ->
   p mod alignof T = 1 /\ p mod alignof T <> 0).
Proof.
  intros Hreach Hal Hrun Hslot.
  pose proof (reachable_inv pageSize w Hreach) as Hinv.
  assert (Hinv' : pool_inv w').
  { apply (exec_keeps_inv (OpAllocate T args raw) w w' Hinv Hal).
    cbn. rewrite bind_unfold, Hrun. reflexivity. }
  split.
  - assert (Hpage : exists j : nat, pages_ (this w') !! j = Some p /\ p <> 0).
    { pose proof (took_overflow_quiet T args raw w (inv_length w Hinv)) as Hov.
      rewrite Hrun in Hov. cbn [snd] in Hov. rewrite Hslot in Hov.
      destruct Hal as [Hpos Hfresh].
      destruct (Allocate_quiet_cases T args raw w (inv_length w Hinv)) as
        [[Hext _]|[(j & _ & Hfc & Hp & Hrun')|(j & q & _ & Hfc & Hp & Hnz & Hrun')]];
        [lia| | |].
      - exfalso.
        destruct Hext as [Hb|Hn]; [rewrite Hb in Hov|rewrite Hn, orb_true_r in Hov];
          discriminate.
      - rewrite Hrun' in Hrun. injection Hrun as <- <-.
        destruct (first_clear_Some _ _ _ _ Hfc) as (Hj & _ & _).
        exists (Z.to_nat j). split; [|lia]. cbn.
        apply list_lookup_insert_eq. rewrite (inv_length w Hinv). lia.
      - rewrite Hrun' in Hrun. injection Hrun as <- <-.
        exists (Z.to_nat j). split; [exact Hp|exact Hnz]. }
    destruct Hpage as (j & Hj & Hnz).
    destruct (proj2 (inv_history w' Hinv' (p - 1))) as [s Hs]; [eauto|].
    exists j, s. split; [exact Hj|]. split; [exact Hs|].
    apply (inv_page w' Hinv' j p Hj Hnz).
  - intros Ha Hmod.
    assert (H1 : p mod alignof T = 1).
    { replace p with (p - 1 + 1) by lia. apply one_past_aligned; assumption. }
    split; [exact H1|]. rewrite H1. discriminate.
Qed.

(** ** Runs *)

Lemma run_reachable (pageSize : Z) (ops : list Op) (w w' : World) :
  reachable pageSize w -> allowed_run ops w -> run ops w = (Done tt, w') ->
  reachable pageSize w'.
Proof.
  revert w. induction ops as [|op ops IH]; intros w Hreach Hal Hrun; cbn in Hal, Hrun.
  - injection Hrun as <-. exact Hreach.
  - destruct Hal as [Hop Hrest].
    destruct (exec op w) as [[[]|f] w1] eqn:Hex; [|contradiction].
    apply (IH w1); [|exact Hrest|exact Hrun].
    exact (reach_step pageSize w w1 op Hreach Hop Hex).
Qed.

(** [pageSize_] is compared as a [size_t]: a pool built with a negative
    page size never finds a type too big. *)
Remark negative_pageSize_never_too_big :
  too_big Big (fresh_world (-1)) = false.
Proof. reflexivity. Qed.

(** * The theorems at concrete pools *)

Lemma one_point_world_reachable : reachable 512 one_point_world.
Proof.
  apply (reach_step 512 (fresh_world 512) one_point_world (OpAllocate Point [3; 4] 4096)).
  - apply reach_fresh.
  - split; [lia|reflexivity].
  - vm_compute. reflexivity.
Defined.

Lemma one_point_world_run :
  Allocate Point [3; 4] [] 4096 (fresh_world 512) = (Done 4097, one_point_world).
Proof. vm_compute. reflexivity. Defined.

Lemma one_point_world_live : is_Some (objects one_point_world !! 4097).
Proof. vm_compute. eexists. reflexivity. Defined.


Lemma Deallocate_by_header_witness :
  (reachable 512 one_point_world /\ is_Some (objects one_point_world !! 4097)) /\
  exists h, bytes one_point_world !! (4097 - 1) = Some h /\
    if h =? extendFlag_
    then
      is_Some (blocks one_point_world !! (4097 - 1)) /\
      Deallocate Point 4097 one_point_world =
      (Done tt,
       {| this := this one_point_world;
          blocks := delete (4097 - 1) (blocks one_point_world);
          bytes := delete (4097 - 1) (bytes one_point_world);
          objects := delete 4097 (objects one_point_world);
          trace := EvFree (4097 - 1) :: EvDestruct 4097 Point :: trace one_point_world |})
    else
      0 <= h < 64 /\ pages_ (this one_point_world) !! Z.to_nat h = Some 4097 /\
      Z.testbit (Z.land (bits_ (this one_point_world)) (not64 (Z.shiftl 1 h))) h = false /\
      Deallocate Point 4097 one_point_world =
      (Done tt,
       {| this := {| pageSize_ := pageSize_ (this one_point_world);
                     bits_ := Z.land (bits_ (this one_point_world)) (not64 (Z.shiftl 1 h));
                     pages_ := pages_ (this one_point_world) |};
          blocks := blocks one_point_world;
          bytes := bytes one_point_world;
          objects := delete 4097 (objects one_point_world);
          trace := EvDestruct 4097 Point :: trace one_point_world |}).
Proof.
  split; [split; [exact one_point_world_reachable|exact one_point_world_live]|].
  exact (Deallocate_by_header 512 one_point_world Point 4097
           one_point_world_reachable one_point_world_live).
Defined.

Lemma Deallocate_frame_witness :
  (reachable 512 one_point_world /\ is_Some (objects one_point_world !! 4097)) /\
  exists h w', bytes one_point_world !! (4097 - 1) = Some h /\
    Deallocate Point 4097 one_point_world = (Done tt, w') /\
    pageSize_ (this w') = pageSize_ (this one_point_world) /\
    pages_ (this w') = pages_ (this one_point_world) /\
    (h = extendFlag_ -> bits_ (this w') = bits_ (this one_point_world)) /\
    (h <> extendFlag_ ->
     0 <= h < 64 /\
     forall k, k <> h ->
       Z.testbit (bits_ (this w')) k = Z.testbit (bits_ (this one_point_world)) k).
Proof.
  split; [split; [exact one_point_world_reachable|exact one_point_world_live]|].
  exact (Deallocate_frame 512 one_point_world Point 4097
           one_point_world_reachable one_point_world_live).
Defined.

Lemma occupancy_tracks_live_objects_witness :
  reachable 512 one_point_world /\
  (forall i, 0 <= i < 64 ->
     (Z.testbit (bits_ (this one_point_world)) i = true <->
      exists p, pages_ (this one_point_world) !! Z.to_nat i = Some p /\ p <> 0 /\
                is_Some (objects one_point_world !! p))) /\
  Z.testbit (bits_ (this one_point_world)) 0 = true /\
  Z.testbit (bits_ (this one_point_world)) 1 = false.
Proof.
  split; [exact one_point_world_reachable|].
  split; [|split; reflexivity].
  exact (proj1 (occupancy_tracks_live_objects 512 one_point_world
                  one_point_world_reachable)).
Defined.

Lemma slot_reuse_same_address_witness :
  (length (pages_ (this (fresh_world 512))) = 64%nat /\
   4096 <> 0 /\
   Allocate Point [3; 4] [] 4096 (fresh_world 512) = (Done 4097, one_point_world) /\
   pages_ (this (fresh_world 512)) !! 0%nat = Some 0 /\
   pages_ (this one_point_world) !! 0%nat = Some 4097 /\
   4097 <> 0) /\
  exists w2 w3,
    Deallocate Point 4097 one_point_world = (Done tt, w2) /\
    Allocate Point [5; 6] [] 0 w2 = (Done 4097, w3) /\
    calls_since w2 w3 = [EvConstruct 4097 Point [5; 6]] /\
    blocks w3 = blocks one_point_world /\
    pages_ (this w3) = pages_ (this one_point_world).
Proof.
  assert (H1 : length (pages_ (this (fresh_world 512))) = 64%nat) by reflexivity.
  assert (H2 : 4096 <> 0) by lia.
  assert (H4 : pages_ (this (fresh_world 512)) !! 0%nat = Some 0) by reflexivity.
  assert (H5 : pages_ (this one_point_world) !! 0%nat = Some 4097)
    by (vm_compute; reflexivity).
  assert (H6 : 4097 <> 0) by lia.
  split; [exact (conj H1 (conj H2 (conj one_point_world_run (conj H4 (conj H5 H6)))))|].
  exact (slot_reuse_same_address Point [3; 4] [5; 6] 4096 0 0%nat 4097
           (fresh_world 512) one_point_world H1 H2 one_point_world_run H4 H5 H6).
Defined.

Lemma destroy_frees_each_page_once_witness :
  reachable 512 one_point_world /\
  exists w',
    MemoryPool_destroy one_point_world = (Done tt, w') /\
    calls_since one_point_world w' =
      rev (EvFree <$> page_bases (pages_ (this one_point_world))) /\
    NoDup (page_bases (pages_ (this one_point_world))) /\
    (forall r, r ∈ page_bases (pages_ (this one_point_world)) <->
               exists s, In (EvMalloc s r) (trace one_point_world)) /\
    (forall e, In e (calls_since one_point_world w') -> is_destruct e = false) /\
    objects w' = objects one_point_world /\
    bits_ (this w') = bits_ (this one_point_world).
Proof.
  split; [exact one_point_world_reachable|].
  exact (destroy_frees_each_page_once 512 one_point_world one_point_world_reachable).
Defined.

Lemma Allocate_null_unchecked_witness :
  length (pages_ (this (fresh_world 512))) = 64%nat /\
  fst (Allocate Point [3; 4] [] 0 (fresh_world 512)) = Crash NullDereference /\
  Allocate Big [7] [] 0 (fresh_world 512) =
  (Crash NullDereference,
   log (EvAlignedAlloc (alignof Big) (to_size_t (sizeof Big + pageOffset_)) 0)
       (fresh_world 512)).
Proof.
  assert (H1 : length (pages_ (this (fresh_world 512))) = 64%nat) by reflexivity.
  pose proof (Allocate_null_unchecked Point [3; 4] (fresh_world 512) H1) as HP.
  pose proof (Allocate_null_unchecked Big [7] (fresh_world 512) H1) as HB.
  split; [exact H1|]. split.
  - apply (proj1 (proj2 HP) 0).
    + vm_compute. discriminate.
    + lia.
    + reflexivity.
    + intros k Hk. lia.
    + reflexivity.
  - apply (proj1 HB). left. vm_compute. reflexivity.
Defined.

Lemma Allocate_forwards_arguments_witness :
  (length (pages_ (this (fresh_world 512))) = 64%nat /\ 4096 <> 0) /\
  (exists p w', Allocate Point [3; 4] [] 4096 (fresh_world 512) = (Done p, w')) /\
  (forall p w', Allocate Point [3; 4] [] 4096 (fresh_world 512) = (Done p, w') ->
     objects w' !! p = Some {| obj_type := Point; obj_repr := ctor Point [3; 4] |} /\
     exists evs, trace w' = EvConstruct p Point [3; 4] :: evs).
Proof.
  assert (H1 : length (pages_ (this (fresh_world 512))) = 64%nat) by reflexivity.
  assert (H2 : 4096 <> 0) by lia.
  split; [exact (conj H1 H2)|].
  exact (Allocate_forwards_arguments Point [3; 4] [] 4096 (fresh_world 512) H1 H2).
Defined.

Lemma slot_pointer_one_past_raw_witness :
  (reachable 512 (fresh_world 512) /\
   allowed (OpAllocate Point [3; 4] 4096) (fresh_world 512) /\
   Allocate Point [3; 4] [] 4096 (fresh_world 512) = (Done 4097, one_point_world) /\
   took_overflow (fresh_world 512) one_point_world = false) /\
  (exists (j : nat) (s : Z),
     pages_ (this one_point_world) !! j = Some 4097 /\
     In (EvMalloc s (4097 - 1)) (trace one_point_world) /\
     is_Some (blocks one_point_world !! (4097 - 1)))
  /\
  (1 < alignof Point -> (4097 - 1) mod alignof Point = 0 ->
   4097 mod alignof Point = 1 /\ 4097 mod alignof Point <> 0).
Proof.
  assert (H1 : reachable 512 (fresh_world 512)) by apply reach_fresh.
  assert (H2 : allowed (OpAllocate Point [3; 4] 4096) (fresh_world 512))
    by (split; [lia|reflexivity]).
  assert (H4 : took_overflow (fresh_world 512) one_point_world = false)
    by (vm_compute; reflexivity).
  split; [exact (conj H1 (conj H2 (conj one_point_world_run H4)))|].
  exact (slot_pointer_one_past_raw 512 Point [3; 4] 4096 (fresh_world 512)
           one_point_world 4097 H1 H2 one_point_world_run H4).
Defined.

(** ** A full pool *)

Lemma full_world_reachable : reachable 512 full_world.
Proof.
  apply (run_reachable 512 (fill 64 4096) (fresh_world 512)).
  - apply reach_fresh.
  - vm_compute. repeat split.
  - vm_compute. reflexivity.
Qed.

(** With all 64 slots occupied, one more [Allocate<Point>(3, 4)] goes to
    the overflow path and still builds the point from 3 and 4. *)
Example full_world_overflow :
  bits_ (this full_world) = 2 ^ 64 - 1 /\
  fst (Allocate Point [3; 4] [] 1048576 full_world) = Done 1048577 /\
  took_overflow full_world (snd (Allocate Point [3; 4] [] 1048576 full_world)) = true /\
  objects (snd (Allocate Point [3; 4] [] 1048576 full_world)) !! 1048577
  = Some {| obj_type := Point; obj_repr := [3; 4] |}.
Proof. vm_compute. repeat split. Qed.

(** On a fresh pool the same call is served from slot 0. *)
Example fresh_world_slot :
  fst (Allocate Point [3; 4] [] 4096 (fresh_world 512)) = Done 4097 /\
  took_overflow (fresh_world 512) one_point_world = false /\
  pages_ (this one_point_world) !! 0%nat = Some 4097 /\
  objects one_point_world !! 4097 = Some {| obj_type := Point; obj_repr := [3; 4] |}.
Proof. vm_compute. repeat split. Qed.

(** Sixty-four allocations created sixty-four pages; tearing the full pool
    down frees sixty-four blocks and runs no destructor. *)
Example full_world_teardown :
  length (page_bases (pages_ (this full_world))) = 64%nat /\
  fst (MemoryPool_destroy full_world) = Done tt /\
  length (calls_since full_world (snd (MemoryPool_destroy full_world))) = 64%nat /\
  existsb is_destruct (calls_since full_world (snd (MemoryPool_destroy full_world))) = false.
Proof. vm_compute. repeat split. Qed.

(** ** Races *)

(** Another thread takes slot 0 between this thread's load and its
    compare-exchange: the compare-exchange fails, the reload shows bit 0
    set, and the scan moves on to claim slot 1. *)
Example lost_race_moves_on :
  fst (Allocate Point [3; 4] [None; Some 1; None] 4096 (fresh_world 512)) = Done 4097 /\
  pages_ (this (snd (Allocate Point [3; 4] [None; Some 1; None] 4096 (fresh_world 512))))
    !! 1%nat = Some 4097 /\
  bits_ (this (snd (Allocate Point [3; 4] [None; Some 1; None] 4096 (fresh_world 512)))) = 3.
Proof. vm_compute. repeat split. Qed.

(** Another thread takes slot 5 in that window: the compare-exchange on
    bit 0 fails, the reload shows bit 0 still clear, and the same bit is
    tried again and claimed. *)
Example lost_race_retries_same_bit :
  fst (Allocate Point [3; 4] [None; Some 32; None] 4096 (fresh_world 512)) = Done 4097 /\
  pages_ (this (snd (Allocate Point [3; 4] [None; Some 32; None] 4096 (fresh_world 512))))
    !! 0%nat = Some 4097 /\
  bits_ (this (snd (Allocate Point [3; 4] [None; Some 32; None] 4096 (fresh_world 512)))) = 33.
Proof. vm_compute. repeat split. Qed.

(** All slots were taken by other threads before the first load: the scan
    finds no clear bit and the object goes to the overflow path. *)
Example all_taken_meanwhile :
  fst (Allocate Point [3; 4] [Some (2 ^ 64 - 1)] 4096 (fresh_world 512)) = Done 4097 /\
  took_overflow (fresh_world 512)
    (snd (Allocate Point [3; 4] [Some (2 ^ 64 - 1)] 4096 (fresh_world 512))) = true.
Proof. vm_compute. repeat split. Qed.

(** * Further properties of the pool *)

(** ** The raw heap of a reachable world *)

Lemma page_bases_insert_fresh (l : list Z) (n : nat) (q : Z) :
  l !! n = Some 0 -> q <> 0 ->
  page_bases (<[n := q]> l) ≡ₚ (q - 1) :: page_bases l.
Proof.
  revert n. induction l as [|p l IH]; intros n Hn Hq; [discriminate|].
  destruct n as [|n]; cbn in Hn |- *.
  - injection Hn as ->. cbn. destruct (Z.eqb_spec q 0); [lia|]. reflexivity.
  - destruct (p =? 0); [apply IH; assumption|].
    rewrite (IH n Hn Hq). apply Permutation_swap.
Qed.

Lemma page_bases_length (l : list Z) : (length (page_bases l) <= length l)%nat.
Proof.
  induction l as [|p l IH]; cbn; [lia|]. destruct (p =? 0); cbn; lia.
Qed.

Lemma heap_inv_fresh (pageSize : Z) : heap_inv pageSize (fresh_world pageSize).
Proof.
  constructor; cbn -[replicate].
  - reflexivity.
  - intros i p Hp Hnz. apply lookup_replicate in Hp. lia.
  - intros b sz Hb. rewrite lookup_empty in Hb. discriminate.
  - reflexivity.
Qed.

Lemma heap_inv_step (pageSize : Z) (op : Op) (w w' : World) :
  pool_inv w -> heap_inv pageSize w -> allowed op w ->
  exec op w = (Done tt, w') -> heap_inv pageSize w'.
Proof.
  intros Hinv Hh Hal Hex. destruct op as [T args raw|T ptr]; cbn in Hal, Hex.
  - destruct Hal as [Hpos Hfresh]. rewrite bind_unfold in Hex.
    destruct (Allocate_quiet_cases T args raw w (inv_length w Hinv)) as
      [[_ Hrun]|[(j & _ & Hfc & Hp & Hrun)|(j & p & _ & Hfc & Hp & Hnz & Hrun)]];
      [lia| | |]; rewrite Hrun in Hex; cbn in Hex; injection Hex as <-.
    + constructor; cbn.
      * apply (hinv_pageSize _ _ Hh).
      * intros i p Hp Hnz.
        pose proof (page_base_live w Hinv i p raw Hp Hnz Hfresh) as Hne.
        rewrite lookup_insert_ne by congruence. apply (hinv_page_size _ _ Hh i p Hp Hnz).
      * intros b sz Hb. destruct (Z.eq_dec b raw) as [->|Hne].
        -- right. rewrite !lookup_insert_eq. split; [eauto|reflexivity].
        -- rewrite lookup_insert_ne in Hb by congruence.
           destruct (hinv_block _ _ Hh b sz Hb) as [Hl|[Ho Hy]]; [left; exact Hl|right].
           rewrite !lookup_insert_ne by lia. auto.
      * apply (hinv_mallocs _ _ Hh).
    + destruct (first_clear_Some _ _ _ _ Hfc) as (Hj & _ & _).
      assert (Hlen : (Z.to_nat j < length (pages_ (this w)))%nat)
        by (apply lookup_lt_Some in Hp; exact Hp).
      constructor; cbn.
      * apply (hinv_pageSize _ _ Hh).
      * intros i p Hi Hnz. destruct (Nat.eq_dec i (Z.to_nat j)) as [->|Hne].
        -- rewrite list_lookup_insert_eq in Hi by exact Hlen. injection Hi as <-.
           replace (raw + 1 - 1) with raw by lia.
           rewrite lookup_insert_eq, (hinv_pageSize _ _ Hh). reflexivity.
        -- rewrite list_lookup_insert_ne in Hi by congruence.
           pose proof (page_base_live w Hinv i p raw Hi Hnz Hfresh) as Hb.
           rewrite lookup_insert_ne by congruence.
           apply (hinv_page_size _ _ Hh i p Hi Hnz).
      * intros b sz Hb. destruct (Z.eq_dec b raw) as [->|Hne].
        -- left. exists (Z.to_nat j), (raw + 1).
           rewrite list_lookup_insert_eq by exact Hlen. repeat split; lia.
        -- rewrite lookup_insert_ne in Hb by congruence.
           destruct (hinv_block _ _ Hh b sz Hb) as [(i & p & Hi & Hnz & ->)|[Ho Hy]].
           ++ left. exists i, p. rewrite list_lookup_insert_ne; [auto|].
              intros <-. congruence.
           ++ right. rewrite !lookup_insert_ne by lia. auto.
      * rewrite page_bases_insert_fresh by (try exact Hp; lia).
        replace (raw + 1 - 1) with raw by lia.
        apply Permutation_skip. apply (hinv_mallocs _ _ Hh).
    + constructor; cbn.
      * apply (hinv_pageSize _ _ Hh).
      * apply (hinv_page_size _ _ Hh).
      * intros b sz Hb.
        destruct (hinv_block _ _ Hh b sz Hb) as [Hl|[Ho Hy]]; [left; exact Hl|right].
        split; [|exact Hy]. destruct (Z.eq_dec p (b + 1)) as [->|Hne].
        -- rewrite lookup_insert_eq. eauto.
        -- rewrite lookup_insert_ne by exact Hne. exact Ho.
      * apply (hinv_mallocs _ _ Hh).
  - destruct (Deallocate_cases T ptr w Hinv Hal) as
      [(i & Hi & Hnz & Hlt & Hy & Hrun)|(Hy & Hb & Hrun)];
      rewrite Hrun in Hex; injection Hex as <-.
    + constructor; cbn.
      * apply (hinv_pageSize _ _ Hh).
      * apply (hinv_page_size _ _ Hh).
      * intros b sz Hb.
        destruct (hinv_block _ _ Hh b sz Hb) as [Hl|[Ho Hyb]]; [left; exact Hl|right].
        split; [|exact Hyb]. rewrite lookup_delete_ne; [exact Ho|].
        intros Heq. subst ptr. replace (b + 1 - 1) with b in Hy by lia.
        rewrite Hy in Hyb. injection Hyb. unfold extendFlag_. lia.
      * apply (hinv_mallocs _ _ Hh).
    + assert (Hpage : forall (k : nat) (p : Z),
                 pages_ (this w) !! k = Some p -> p <> 0 -> ptr - 1 <> p - 1).
      { intros k p Hp Hnz Heq. apply (page_header_not_flag w Hinv k p Hp Hnz). congruence. }
      constructor; cbn.
      * apply (hinv_pageSize _ _ Hh).
      * intros k p Hp Hnz. rewrite lookup_delete_ne by (eapply Hpage; eassumption).
        apply (hinv_page_size _ _ Hh k p Hp Hnz).
      * intros b sz Hbs. destruct (Z.eq_dec (ptr - 1) b) as [<-|Hne].
        { rewrite lookup_delete_eq in Hbs. discriminate. }
        rewrite lookup_delete_ne in Hbs by exact Hne.
        destruct (hinv_block _ _ Hh b sz Hbs) as [Hl|[Ho Hyb]]; [left; exact Hl|right].
        rewrite !lookup_delete_ne by lia. auto.
      * apply (hinv_mallocs _ _ Hh).
Qed.

Lemma reachable_heap_inv (pageSize : Z) (w : World) :
  reachable pageSize w -> heap_inv pageSize w.
Proof.
  induction 1 as [|w w' op Hreach IH Hal Hex].
  - apply heap_inv_fresh.
  - exact (heap_inv_step pageSize op w w' (reachable_inv pageSize w Hreach) IH Hal Hex).
Qed.

(** ** Which slot, which address *)

(** The quiet [Allocate] of a fitting type when [j] is the lowest clear
    bit: it returns and sets bit [j]. *)
Lemma Allocate_lowest_clear T args raw (w : World) (j : Z) :
  length (pages_ (this w)) = 64%nat ->
  too_big T w = false ->
  raw <> 0 ->
  first_clear 64 0 (bits_ (this w)) = Some j ->
  exists p w1,
    Allocate T args [] raw w = (Done p, w1) /\
    bits_ (this w1) = Z.lor (bits_ (this w)) (Z.shiftl 1 j).
Proof.
  intros Hlen Hsmall Hraw Hfc.
  destruct (Allocate_quiet_cases T args raw w Hlen Hraw) as
    [[[Hbig|Hnone] _]|[(j' & _ & Hfc' & _ & Hrun)|(j' & p & _ & Hfc' & _ & _ & Hrun)]];
    [congruence|congruence| |];
    rewrite Hfc in Hfc'; injection Hfc' as <-; rewrite Hrun; eauto.
Qed.

(** X1: first fit.  A quiet [Allocate<T>] of a type that fits a page claims
    the lowest slot whose bit is clear: the scan starts at bit 0 and
    returns at the first bit it can set. *)
Theorem Allocate_first_fit T args raw (w : World) (j : Z) :
  length (pages_ (this w)) = 64%nat ->
  sizeof T <= to_size_t (pageSize_ (this w)) ->
  0 < raw ->
  0 <= j < 64 ->
  Z.testbit (bits_ (this w)) j = false ->
  (forall k, 0 <= k < j -> Z.testbit (bits_ (this w)) k = true) ->
  served_from_slot j w (Allocate T args [] raw w) /\
  bits_ (this (snd (Allocate T args [] raw w))) = Z.lor (bits_ (this w)) (Z.shiftl 1 j) /\
  took_overflow w (snd (Allocate T args [] raw w)) = false.
Proof.
  intros Hlen Hsz Hraw Hj Hbit Hlow.
  pose proof (first_clear_lowest _ j Hj Hbit Hlow) as Hfc.
  assert (Hsmall : too_big T w = false) by (apply Z.ltb_ge; exact Hsz).
  pose proof (took_overflow_quiet T args raw w Hlen) as Hov.
  rewrite Hsmall, Hfc in Hov.
  destruct (Allocate_quiet_cases T args raw w Hlen) as
    [[[Hbig|Hnone] _]|[(j' & _ & Hfc' & Hp & Hrun)|(j' & p & _ & Hfc' & Hp & Hnz & Hrun)]];
    [lia|congruence|congruence| |];
    rewrite Hfc in Hfc'; injection Hfc' as <-; rewrite Hrun in Hov |- *; cbn.
  - split; [|split; [reflexivity|exact Hov]].
    exists (raw + 1). cbn. repeat split; try lia; try assumption.
    + apply list_lookup_insert_eq. lia.
    + rewrite testbit_set, Z.eqb_refl by lia. apply orb_true_r.
    + rewrite lookup_insert_eq. eauto.
  - split; [|split; [reflexivity|exact Hov]].
    exists p. cbn. repeat split; try assumption.
    + rewrite testbit_set, Z.eqb_refl by lia. apply orb_true_r.
    + rewrite lookup_insert_eq. eauto.
Qed.

Lemma fresh_address_unused (w : World) (raw : Z) :
  pool_inv w -> blocks w !! raw = None -> objects w !! (raw + 1) = None.
Proof.
  intros Hinv Hraw. destruct (objects w !! (raw + 1)) as [o|] eqn:Ho; [|reflexivity].
  exfalso. destruct (inv_object w Hinv (raw + 1)) as [[Hnz [i Hi]]|[_ [sz Hb]]]; [eauto| |].
  - destruct (inv_page w Hinv i (raw + 1) Hi Hnz) as [[sz Hb] _].
    replace (raw + 1 - 1) with raw in Hb by lia. congruence.
  - replace (raw + 1 - 1) with raw in Hb by lia. congruence.
Qed.

Lemma Allocate_target_unused T args raw (w w' : World) (p : Z) :
  pool_inv w ->
  allowed (OpAllocate T args raw) w ->
  Allocate T args [] raw w = (Done p, w') ->
  objects w !! p = None.
Proof.
  intros Hinv [Hpos Hfresh] Hrun.
  destruct (Allocate_quiet_cases T args raw w (inv_length w Hinv)) as
    [[_ Hrun']|[(j & _ & Hfc & Hp & Hrun')|(j & q & _ & Hfc & Hp & Hnz & Hrun')]];
    [lia| | |]; rewrite Hrun' in Hrun; injection Hrun as <- <-.
  - apply fresh_address_unused; assumption.
  - apply fresh_address_unused; assumption.
  - destruct (first_clear_Some _ _ _ _ Hfc) as (Hj & Hbit & _).
    pose proof (inv_occupancy w Hinv (Z.to_nat j) q Hp) as Hocc.
    rewrite Z2Nat.id, Hbit in Hocc by lia.
    destruct (objects w !! q) as [o|] eqn:Ho; [|reflexivity].
    exfalso. assert (false = true); [|discriminate]. apply Hocc. eauto.
Qed.

(** X2: [Allocate] never hands out an address where an object lives.  On a
    pool reached by calls of one thread, the returned pointer is non-null,
    no object lived there before the call, and every other object and the
    header byte in front of it are as before. *)
Theorem Allocate_returns_unused_address (pageSize : Z) T args raw (w w' : World) (p : Z) :
  reachable pageSize w ->
  allowed (OpAllocate T args raw) w ->
  Allocate T args [] raw w = (Done p, w') ->
  p <> 0 /\
  objects w !! p = None /\
  objects w' = <[p := {| obj_type := T; obj_repr := ctor T args |}]> (objects w) /\
  (forall q, is_Some (objects w !! q) -> bytes w' !! (q - 1) = bytes w !! (q - 1)).
Proof.
  intros Hreach [Hpos Hfresh] Hrun.
  pose proof (reachable_inv pageSize w Hreach) as Hinv.
  assert (Hhdr : forall q m, is_Some (objects w !! q) ->
                   <[raw := m]> (bytes w) !! (q - 1) = bytes w !! (q - 1)).
  { intros q m Hq. apply lookup_insert_ne. intros Heq.
    pose proof (fresh_address_unused w raw Hinv Hfresh) as Hnone.
    replace (raw + 1) with q in Hnone by lia. rewrite Hnone in Hq.
    destruct Hq; discriminate. }
  destruct (Allocate_quiet_cases T args raw w (inv_length w Hinv)) as
    [[_ Hrun']|[(j & _ & Hfc & Hp & Hrun')|(j & q & _ & Hfc & Hp & Hnz & Hrun')]];
    [lia| | |]; rewrite Hrun' in Hrun; injection Hrun as <- <-; cbn.
  - repeat split; [lia|apply fresh_address_unused; assumption|]. intros q. apply Hhdr.
  - repeat split; [lia|apply fresh_address_unused; assumption|]. intros q. apply Hhdr.
  - destruct (first_clear_Some _ _ _ _ Hfc) as (Hj & Hbit & _).
    repeat split; [exact Hnz|].
    pose proof (inv_occupancy w Hinv (Z.to_nat j) q Hp) as Hocc.
    rewrite Z2Nat.id, Hbit in Hocc by lia.
    destruct (objects w !! q) as [o|] eqn:Ho; [|reflexivity].
    exfalso. assert (false = true); [|discriminate]. apply Hocc. eauto.
Qed.

(** X3: an overflow allocation leaves the pool object alone.  [bits_],
    [pages_] and [pageSize_] are unchanged, the returned pointer is no
    slot's page, its header byte is 0xFF, and the one new block has
    [sizeof(T) + 1] bytes. *)
Theorem overflow_leaves_pool_untouched (pageSize : Z) T args raw (w w' : World) (p : Z) :
  reachable pageSize w ->
  allowed (OpAllocate T args raw) w ->
  Allocate T args [] raw w = (Done p, w') ->
  took_overflow w w' = true ->
  this w' = this w /\
  (forall i : nat, pages_ (this w) !! i <> Some p) /\
  bytes w' !! (p - 1) = Some extendFlag_ /\
  blocks w' = <[p - 1 := to_size_t (sizeof T + pageOffset_)]> (blocks w).
Proof.
  intros Hreach [Hpos Hfresh] Hrun Hov.
  pose proof (reachable_inv pageSize w Hreach) as Hinv.
  pose proof (took_overflow_quiet T args raw w (inv_length w Hinv)) as Hq.
  rewrite Hrun in Hq. cbn [snd] in Hq. rewrite Hov in Hq.
  destruct (Allocate_quiet_cases T args raw w (inv_length w Hinv)) as
    [[_ Hrun']|[(j & Hs & Hfc & _)|(j & q & Hs & Hfc & _)]];
    [lia| |rewrite Hs, Hfc in Hq; discriminate|rewrite Hs, Hfc in Hq; discriminate].
  rewrite Hrun' in Hrun. injection Hrun as <- <-. cbn.
  replace (raw + 1 - 1) with raw by lia.
  repeat split; [|apply lookup_insert_eq].
  intros i Hi. pose proof (page_base_live w Hinv i (raw + 1) raw Hi) as Hne.
  apply Hne; [lia|exact Hfresh|lia].
Qed.

(** ** Allocate, then Deallocate *)

Lemma set_then_clear (b j : Z) :
  0 <= b < 2 ^ 64 -> 0 <= j < 64 -> Z.testbit b j = false ->
  Z.land (Z.lor b (Z.shiftl 1 j)) (not64 (Z.shiftl 1 j)) = b.
Proof.
  intros Hb Hj Hbit. apply Z.bits_inj'. intros n Hn.
  destruct (Z.ltb_spec n 64) as [Hlow|Hhigh].
  - rewrite testbit_clear, testbit_set by lia.
    destruct (Z.eqb_spec j n) as [<-|_].
    + rewrite Hbit. reflexivity.
    + rewrite orb_false_r, andb_true_r. reflexivity.
  - rewrite Z.land_spec, testbit_set by lia.
    rewrite (testbit_above b n Hb Hhigh).
    replace (j =? n) with false by (symmetry; apply Z.eqb_neq; lia).
    reflexivity.
Qed.

(** X4: [Deallocate] undoes [Allocate].  Deallocating the pointer a call
    has just returned always succeeds and gives back the [bits_] and the
    objects from before the call; after an overflow allocation the pool and
    the live blocks are also as before, after a slot allocation the only
    thing that may remain is the page of the claimed slot. *)
Theorem Allocate_then_Deallocate (pageSize : Z) T args raw (w w1 : World) (p : Z) :
  reachable pageSize w ->
  allowed (OpAllocate T args raw) w ->
  Allocate T args [] raw w = (Done p, w1) ->
  exists w2,
    Deallocate T p w1 = (Done tt, w2) /\
    bits_ (this w2) = bits_ (this w) /\
    objects w2 = objects w /\
    (took_overflow w w1 = true -> this w2 = this w /\ blocks w2 = blocks w) /\
    (took_overflow w w1 = false ->
     exists j : nat,
       pages_ (this w2) = <[j := p]> (pages_ (this w)) /\
       (pages_ (this w) !! j = Some p \/ pages_ (this w) !! j = Some 0) /\
       blocks w2 = blocks w1).
Proof.
  intros Hreach Hal Hrun.
  pose proof (reachable_inv pageSize w Hreach) as Hinv.
  pose proof (Allocate_target_unused T args raw w w1 p Hinv Hal Hrun) as Hnone.
  pose proof (took_overflow_quiet T args raw w (inv_length w Hinv)) as Hov.
  rewrite Hrun in Hov. cbn [snd] in Hov.
  remember (took_overflow w w1) as tk eqn:Htk. clear Htk.
  destruct Hal as [Hpos Hfresh].
  destruct (Allocate_quiet_cases T args raw w (inv_length w Hinv)) as
    [[Hcond Hrun']|[(j & Hs & Hfc & Hp & Hrun')|(j & q & Hs & Hfc & Hp & Hnz & Hrun')]];
    [lia| | |]; rewrite Hrun' in Hrun; injection Hrun as <- <-.
  - exists (after_release_extend T (raw + 1) (after_extend T args raw w)).
    split.
    { apply Deallocate_extend; cbn; replace (raw + 1 - 1) with raw by lia;
        rewrite ?lookup_insert_eq; eauto; lia. }
    cbn. replace (raw + 1 - 1) with raw by lia.
    split; [reflexivity|]. split; [apply delete_insert_id; exact Hnone|].
    split.
    + intros _. split; [reflexivity|apply delete_insert_id; exact Hfresh].
    + intros H. rewrite H in Hov.
      destruct Hcond as [Hb|Hn]; [rewrite Hb in Hov|rewrite Hn, orb_true_r in Hov];
        discriminate.
  - destruct (first_clear_Some _ _ _ _ Hfc) as (Hj & Hbit & _).
    exists (after_release_slot T (raw + 1) j (after_claim_fresh T args raw j w)).
    split.
    { apply Deallocate_slot; cbn; replace (raw + 1 - 1) with raw by lia;
        rewrite ?lookup_insert_eq, ?to_uint8_slot by lia; eauto; lia. }
    cbn. split; [apply set_then_clear; [apply (inv_bits w Hinv)|lia|exact Hbit]|].
    split; [apply delete_insert_id; exact Hnone|].
    split.
    + intros H. rewrite H, Hs, Hfc in Hov. discriminate.
    + intros _. exists (Z.to_nat j). auto.
  - destruct (first_clear_Some _ _ _ _ Hfc) as (Hj & Hbit & _).
    destruct (inv_page w Hinv (Z.to_nat j) q Hp Hnz) as [Hblk Hhdr].
    rewrite Z2Nat.id in Hhdr by lia.
    exists (after_release_slot T q j (after_claim_reuse T args j q w)).
    split.
    { apply Deallocate_slot; cbn; rewrite ?lookup_insert_eq; eauto; try lia.
      intros H0. rewrite H0, (inv_null w Hinv) in Hblk. destruct Hblk; discriminate. }
    cbn. split; [apply set_then_clear; [apply (inv_bits w Hinv)|lia|exact Hbit]|].
    split; [apply delete_insert_id; exact Hnone|].
    split.
    + intros H. rewrite H, Hs, Hfc in Hov. discriminate.
    + intros _. exists (Z.to_nat j). split; [|auto].
      symmetry. apply list_insert_id. exact Hp.
Qed.

(** ** What teardown leaves behind *)

Lemma destroy_loop_blocks (n i : nat) (w w' : World) :
  length (pages_ (this w)) = 64%nat -> (i + n = 64)%nat ->
  (forall (k : nat) (p : Z), (i <= k)%nat -> pages_ (this w) !! k = Some p -> p <> 0 ->
     is_Some (blocks w !! (p - 1))) ->
  (forall (k k' : nat) (p : Z),
     pages_ (this w) !! k = Some p -> pages_ (this w) !! k' = Some p -> p <> 0 -> k = k') ->
  destroy_loop n (Z.of_nat i) w = (Done tt, w') ->
  forall b,
    (b ∈ page_bases (drop i (pages_ (this w))) -> blocks w' !! b = None) /\
    (b ∉ page_bases (drop i (pages_ (this w))) -> blocks w' !! b = blocks w !! b).
Proof.
  revert i w. induction n as [|n IH]; intros i w Hlen Hin Hlive Hinj Hrun b.
  - cbn in Hrun. injection Hrun as <-. rewrite drop_ge by lia. cbn.
    split; [intros H; inversion H|reflexivity].
  - destruct (lookup_lt_is_Some_2 (pages_ (this w)) i) as [p Hp]; [lia|].
    cbn [destroy_loop] in Hrun. rewrite bind_unfold in Hrun.
    rewrite (page_at_ok (Z.of_nat i) p) in Hrun by (rewrite ?Nat2Z.id; try lia; exact Hp).
    rewrite (drop_S _ _ _ Hp). cbn [page_bases].
    replace (Z.of_nat i + 1) with (Z.of_nat (S i)) in Hrun by lia.
    destruct (Z.eq_dec p 0) as [Hz|Hnz].
    + subst p. change (0 =? 0) with true in Hrun |- *. cbn iota in Hrun |- *.
      rewrite bind_unfold in Hrun. cbn [ret] in Hrun.
      apply (IH (S i) w); try assumption; [lia|].
      intros k q Hk. apply Hlive. lia.
    + rewrite (proj2 (Z.eqb_neq p 0) Hnz) in Hrun |- *.
      destruct (Hlive i p (le_n i) Hp Hnz) as [sz Hb].
      rewrite bind_unfold in Hrun. unfold free at 1 in Hrun. rewrite Hb in Hrun.
      match type of Hrun with destroy_loop n _ ?w1 = _ => set (w1' := w1) in * end.
      assert (IHb := IH (S i) w1' Hlen ltac:(lia)).
      destruct (IHb) with (b := b) as [Hin' Hout'].
      * intros k q Hk Hq Hqz. cbn.
        rewrite lookup_delete_ne; [apply (Hlive k q); [lia|exact Hq|exact Hqz]|].
        intros Heq. assert (q = p) by lia. subst q.
        pose proof (Hinj i k p Hp Hq Hnz). lia.
      * exact Hinj.
      * exact Hrun.
      * cbn in Hin', Hout'. split.
        -- intros Hmem. destruct (decide (b ∈ page_bases (drop (S i) (pages_ (this w)))))
             as [Ht|Ht]; [exact (Hin' Ht)|].
           apply elem_of_cons in Hmem. destruct Hmem as [->|Hmem]; [|contradiction].
           rewrite (Hout' Ht). apply lookup_delete_eq.
        -- intros Hmem. apply not_elem_of_cons in Hmem. destruct Hmem as [Hne Ht].
           rewrite (Hout' Ht). apply lookup_delete_ne. congruence.
Qed.

Lemma destroy_blocks (w : World) :
  pool_inv w ->
  exists w',
    MemoryPool_destroy w = (Done tt, w') /\
    forall b,
      (b ∈ page_bases (pages_ (this w)) -> blocks w' !! b = None) /\
      (b ∉ page_bases (pages_ (this w)) -> blocks w' !! b = blocks w !! b).
Proof.
  intros Hinv.
  assert (Hlive : forall (k : nat) (p : Z), (0 <= k)%nat ->
             pages_ (this w) !! k = Some p -> p <> 0 -> is_Some (blocks w !! (p - 1))).
  { intros k p _ Hp Hnz. apply (inv_page w Hinv k p Hp Hnz). }
  assert (Hinj : forall (k k' : nat) (p : Z),
             pages_ (this w) !! k = Some p -> pages_ (this w) !! k' = Some p ->
             p <> 0 -> k = k').
  { intros k k' p. apply (pages_distinct w Hinv k k' p). }
  destruct (destroy_loop_run 64 0 w (inv_length w Hinv) eq_refl Hlive Hinj)
    as (w' & Hrun & _).
  exists w'. split; [exact Hrun|].
  pose proof (destroy_loop_blocks 64 0 w w' (inv_length w Hinv) eq_refl Hlive Hinj Hrun)
    as Hb.
  rewrite drop_0 in Hb. exact Hb.
Qed.

(** X5: teardown frees the pages and nothing else.  After [~MemoryPool] on
    a reachable world no slot's page is a live block any more, while the
    block of every overflow object that was not deallocated is still live:
    the pool does not release what [AllocateExtend] allocated. *)
Theorem destroy_releases_pages_only (pageSize : Z) (w : World) :
  reachable pageSize w ->
  exists w',
    MemoryPool_destroy w = (Done tt, w') /\
    (forall (i : nat) (p : Z),
       pages_ (this w) !! i = Some p -> p <> 0 -> blocks w' !! (p - 1) = None) /\
    (forall q,
       is_Some (objects w !! q) -> bytes w !! (q - 1) = Some extendFlag_ ->
       is_Some (blocks w' !! (q - 1)) /\ blocks w' !! (q - 1) = blocks w !! (q - 1)).
Proof.
  intros Hreach. pose proof (reachable_inv pageSize w Hreach) as Hinv.
  destruct (destroy_blocks w Hinv) as (w' & Hrun & Hb).
  exists w'. split; [exact Hrun|]. split.
  - intros i p Hp Hnz. apply (proj1 (Hb (p - 1))).
    apply elem_of_page_bases. eauto.
  - intros q Hq Hh.
    assert (Hout : q - 1 ∉ page_bases (pages_ (this w))).
    { rewrite elem_of_page_bases. intros (k & p & Hp & Hnz & Heq).
      apply (page_header_not_flag w Hinv k p Hp Hnz). congruence. }
    rewrite (proj2 (Hb (q - 1)) Hout). split; [|reflexivity].
    destruct (inv_object w Hinv q Hq) as [[Hnz [i Hi]]|[_ Hblk]]; [|exact Hblk].
    exfalso. apply (page_header_not_flag w Hinv i q Hi Hnz). exact Hh.
Qed.

(** X6: nothing leaks once every object is deallocated.  If no object of
    the pool is alive, [bits_] is 0, and after [~MemoryPool] no block that
    the pool allocated is live. *)
Theorem no_leak_when_all_deallocated (pageSize : Z) (w : World) :
  reachable pageSize w -> objects w = ∅ ->
  bits_ (this w) = 0 /\
  exists w', MemoryPool_destroy w = (Done tt, w') /\ blocks w' = ∅.
Proof.
  intros Hreach Hempty. pose proof (reachable_inv pageSize w Hreach) as Hinv.
  pose proof (reachable_heap_inv pageSize w Hreach) as Hh.
  split.
  - apply Z.bits_inj'. intros n Hn. rewrite Z.bits_0.
    destruct (Z.ltb_spec n 64) as [Hlow|Hhigh];
      [|apply testbit_above; [apply (inv_bits w Hinv)|lia]].
    destruct (slot_has_page w n (inv_length w Hinv)) as [p Hp]; [lia|].
    pose proof (inv_occupancy w Hinv (Z.to_nat n) p Hp) as Hocc.
    rewrite Z2Nat.id in Hocc by lia.
    destruct (Z.testbit (bits_ (this w)) n); [|reflexivity].
    destruct (proj1 Hocc eq_refl) as [_ [o Ho]].
    rewrite Hempty, lookup_empty in Ho. discriminate.
  - destruct (destroy_blocks w Hinv) as (w' & Hrun & Hblocks).
    exists w'. split; [exact Hrun|]. apply map_empty. intros b.
    destruct (Hblocks b) as [Hin Hout].
    destruct (decide (b ∈ page_bases (pages_ (this w)))) as [Hm|Hm]; [exact (Hin Hm)|].
    rewrite (Hout Hm). destruct (blocks w !! b) as [sz|] eqn:Hb; [|reflexivity].
    exfalso. destruct (hinv_block _ _ Hh b sz Hb) as [Hpage|[[o Ho] _]].
    + apply Hm. apply elem_of_page_bases. exact Hpage.
    + rewrite Hempty, lookup_empty in Ho. discriminate.
Qed.

(** X7: at most 64 pages, ever.  However many calls were made, the
    addresses [std::malloc] has returned to the pool are pairwise distinct,
    they are the pages now recorded in [pages_], and there are at most 64
    of them: the pool calls [std::malloc] once for each slot it first uses
    and never again. *)
Theorem at_most_64_pages (pageSize : Z) (w : World) :
  reachable pageSize w ->
  malloc_rets (trace w) ≡ₚ page_bases (pages_ (this w)) /\
  NoDup (malloc_rets (trace w)) /\
  (length (malloc_rets (trace w)) <= 64)%nat.
Proof.
  intros Hreach. pose proof (reachable_inv pageSize w Hreach) as Hinv.
  pose proof (hinv_mallocs _ _ (reachable_heap_inv pageSize w Hreach)) as Hperm.
  split; [exact Hperm|]. split.
  - rewrite Hperm. apply page_bases_NoDup. intros k k' p.
    apply (pages_distinct w Hinv k k' p).
  - rewrite Hperm, <- (inv_length w Hinv). apply page_bases_length.
Qed.

(** ** Pages stay where they are *)

Lemma exec_keeps_pages (op : Op) (w w' : World) (i : nat) (p : Z) :
  pool_inv w -> allowed op w -> exec op w = (Done tt, w') ->
  pages_ (this w) !! i = Some p -> p <> 0 ->
  pages_ (this w') !! i = Some p.
Proof.
  intros Hinv Hal Hex Hp Hnz. destruct op as [T args raw|T ptr]; cbn in Hal, Hex.
  - destruct Hal as [Hpos Hfresh]. rewrite bind_unfold in Hex.
    destruct (Allocate_quiet_cases T args raw w (inv_length w Hinv)) as
      [[_ Hrun]|[(j & _ & Hfc & Hj & Hrun)|(j & q & _ & Hfc & Hj & Hqz & Hrun)]];
      [lia| | |]; rewrite Hrun in Hex; cbn in Hex; injection Hex as <-; cbn;
      try exact Hp.
    rewrite list_lookup_insert_ne; [exact Hp|]. intros <-. congruence.
  - destruct (Deallocate_cases T ptr w Hinv Hal) as
      [(k & _ & _ & _ & _ & Hrun)|(_ & _ & Hrun)];
      rewrite Hrun in Hex; injection Hex as <-; exact Hp.
Qed.

(** X8: a page, once created, stays.  Over any sequence of [Allocate] and
    [Deallocate] calls, a slot that holds a page keeps the same address, the
    page's block stays live and its header byte keeps the slot's index. *)
Theorem pages_are_stable (pageSize : Z) (ops : list Op) (w w' : World) (i : nat) (p : Z) :
  reachable pageSize w -> allowed_run ops w -> run ops w = (Done tt, w') ->
  pages_ (this w) !! i = Some p -> p <> 0 ->
  pages_ (this w') !! i = Some p /\
  is_Some (blocks w' !! (p - 1)) /\
  bytes w' !! (p - 1) = Some (Z.of_nat i).
Proof.
  intros Hreach Hal Hrun Hp Hnz.
  assert (Hpage : pages_ (this w') !! i = Some p).
  { pose proof (reachable_inv pageSize w Hreach) as Hinv.
    clear Hreach. revert w Hinv Hal Hrun Hp.
    induction ops as [|op ops IH]; intros w Hinv Hal Hrun Hp; cbn in Hal, Hrun.
    - injection Hrun as <-. exact Hp.
    - destruct Hal as [Hop Hrest].
      destruct (exec op w) as [[[]|f] w1] eqn:Hex; [|contradiction].
      apply (IH w1); [|exact Hrest|exact Hrun|].
      + exact (exec_keeps_inv op w w1 Hinv Hop Hex).
      + exact (exec_keeps_pages op w w1 i p Hinv Hop Hex Hp Hnz). }
  split; [exact Hpage|].
  pose proof (reachable_inv pageSize w'
                (run_reachable pageSize ops w w' Hreach Hal Hrun)) as Hinv'.
  apply (inv_page w' Hinv' i p Hpage Hnz).
Qed.

(** ** Objects and the blocks they live in *)

(** X9: the object fits.  For a pool with a non-negative page size, the
    object [Allocate<T>] constructs lies inside the block whose first byte
    is its header: the block starts one byte before the returned pointer
    and ends no earlier than [sizeof(T)] bytes after it, on the slot path
    (a page of [pageSize_ + 1] bytes) and on the overflow path alike. *)
Theorem object_fits_its_block (pageSize : Z) T args raw (w w' : World) (p : Z) :
  0 <= pageSize < 2 ^ 63 ->
  1 <= sizeof T < 2 ^ 63 ->
  reachable pageSize w ->
  allowed (OpAllocate T args raw) w ->
  Allocate T args [] raw w = (Done p, w') ->
  exists sz, blocks w' !! (p - 1) = Some sz /\ p + sizeof T <= (p - 1) + sz.
Proof.
  intros Hps HT Hreach [Hpos Hfresh] Hrun.
  pose proof (reachable_inv pageSize w Hreach) as Hinv.
  pose proof (reachable_heap_inv pageSize w Hreach) as Hh.
  pose proof (hinv_pageSize _ _ Hh) as Hpsw.
  assert (Hpage : to_size_t (pageSize + pageOffset_) = pageSize + 1).
  { unfold to_size_t, pageOffset_. apply Z.mod_small. lia. }
  assert (Hfit : too_big T w = false -> sizeof T <= pageSize).
  { unfold too_big, to_size_t. rewrite Hpsw, Z.mod_small by lia. apply Z.ltb_ge. }
  destruct (Allocate_quiet_cases T args raw w (inv_length w Hinv)) as
    [[_ Hrun']|[(j & Hs & _ & _ & Hrun')|(j & q & Hs & _ & Hp & Hnz & Hrun')]];
    [lia| | |]; rewrite Hrun' in Hrun; injection Hrun as <- <-; cbn.
  - exists (sizeof T + 1). replace (raw + 1 - 1) with raw by lia.
    rewrite lookup_insert_eq. split; [|lia].
    unfold to_size_t, pageOffset_. rewrite Z.mod_small by lia. reflexivity.
  - exists (pageSize + 1). replace (raw + 1 - 1) with raw by lia.
    rewrite lookup_insert_eq, Hpsw, Hpage. split; [reflexivity|].
    specialize (Hfit Hs). lia.
  - exists (pageSize + 1). rewrite (hinv_page_size _ _ Hh _ q Hp Hnz), Hpage.
    split; [reflexivity|]. specialize (Hfit Hs). lia.
Qed.

(** X10: [Deallocate] ends one lifetime and frees at most one block.  The
    object at the pointer is gone afterwards; at every other address the
    live objects, the header byte in front and the block that starts there
    are as before. *)
Theorem Deallocate_keeps_other_objects (pageSize : Z) T (ptr : Z) (w w' : World) :
  reachable pageSize w ->
  is_Some (objects w !! ptr) ->
  Deallocate T ptr w = (Done tt, w') ->
  objects w' !! ptr = None /\
  forall q, q <> ptr ->
    objects w' !! q = objects w !! q /\
    bytes w' !! (q - 1) = bytes w !! (q - 1) /\
    blocks w' !! (q - 1) = blocks w !! (q - 1).
Proof.
  intros Hreach Hobj Hrun. pose proof (reachable_inv pageSize w Hreach) as Hinv.
  destruct (Deallocate_cases T ptr w Hinv Hobj) as
    [(i & _ & _ & _ & _ & Hrun')|(_ & _ & Hrun')];
    rewrite Hrun' in Hrun; injection Hrun as <-; cbn.
  - split; [apply lookup_delete_eq|]. intros q Hq.
    rewrite lookup_delete_ne by congruence. auto.
  - split; [apply lookup_delete_eq|]. intros q Hq.
    rewrite !lookup_delete_ne by (congruence || lia). auto.
Qed.

(** ** A pool built with a negative page size *)

Lemma to_size_t_negative (x : Z) : - 2 ^ 64 <= x < 0 -> to_size_t x = 2 ^ 64 + x.
Proof.
  intros Hx. unfold to_size_t.
  rewrite <- (Z.mod_add x 1 (2 ^ 64)) by lia.
  rewrite Z.mod_small by lia. lia.
Qed.

(** X11: the constructor accepts any [int64_t].  With a negative
    [pageSize_] the test [sizeof(T) > pageSize_], made on [size_t], is false
    for every type below 2^63 bytes: [Allocate] goes to the overflow path
    only when all 64 bits are set, and a slot's page is requested with
    [pageSize_ + 1] bytes, 0 bytes for a page size of -1. *)
Theorem negative_pageSize_disables_size_check T args raw (w : World) :
  - 2 ^ 63 <= pageSize_ (this w) < 0 ->
  sizeof T < 2 ^ 63 ->
  length (pages_ (this w)) = 64%nat ->
  (took_overflow w (snd (Allocate T args [] raw w)) = true <->
   forall i, 0 <= i < 64 -> Z.testbit (bits_ (this w)) i = true)
  /\
  (raw <> 0 -> Z.testbit (bits_ (this w)) 0 = false ->
   pages_ (this w) !! 0%nat = Some 0 ->
   calls_since w (snd (Allocate T args [] raw w)) =
     [EvConstruct (raw + 1) T args;
      EvMalloc (if pageSize_ (this w) =? -1 then 0 else 2 ^ 64 + pageSize_ (this w) + 1) raw]).
Proof.
  intros Hps HT Hlen.
  assert (Hsmall : too_big T w = false).
  { unfold too_big. apply Z.ltb_ge. rewrite to_size_t_negative by lia. lia. }
  split.
  - rewrite took_overflow_quiet, Hsmall by exact Hlen. cbn [orb].
    destruct (first_clear 64 0 (bits_ (this w))) as [j|] eqn:Hfc.
    + destruct (first_clear_Some _ _ _ _ Hfc) as (Hj & Hbit & _).
      split; [discriminate|]. intros H. rewrite H in Hbit by lia. discriminate.
    + split; [|reflexivity]. intros _ i Hi.
      apply (proj1 (first_clear_None 64 0 _) Hfc). lia.
  - intros Hraw Hbit Hp.
    assert (Hfc : first_clear 64 0 (bits_ (this w)) = Some 0)
      by (apply first_clear_lowest; [lia|exact Hbit|intros k Hk; lia]).
    rewrite Allocate_quiet. fold (too_big T w). rewrite Hsmall, Hfc.
    rewrite Allocate_claimed_fresh by (try lia; try exact Hraw; exact Hp).
    apply calls_since_app. cbn. do 2 f_equal. f_equal.
    unfold pageOffset_.
    destruct (Z.eqb_spec (pageSize_ (this w)) (-1)) as [->|Hne]; [reflexivity|].
    rewrite to_size_t_negative by lia. lia.
Qed.

(** ** Claiming a slot while other threads write [bits_] *)








(** ** Sixty-four slots, then overflow *)

Lemma ones_succ (k : Z) :
  0 <= k -> Z.lor (Z.ones k) (Z.shiftl 1 k) = Z.ones (k + 1).
Proof.
  intros Hk. apply Z.bits_inj'. intros n Hn. rewrite testbit_set by lia.
  destruct (Z.lt_trichotomy n k) as [Hlt|[->|Hgt]].
  - rewrite !Z.ones_spec_low by lia. reflexivity.
  - rewrite Z.eqb_refl, orb_true_r, Z.ones_spec_low by lia. reflexivity.
  - rewrite !Z.ones_spec_high by lia.
    replace (k =? n) with false by (symmetry; apply Z.eqb_neq; lia). reflexivity.
Qed.

Lemma fill_from (pageSize : Z) (ops : list Op) (w : World) (k : nat) :
  reachable pageSize w ->
  bits_ (this w) = Z.ones (Z.of_nat k) ->
  (k + length ops <= 64)%nat ->
  Forall (fits pageSize) ops ->
  allowed_run ops w ->
  exists w',
    run ops w = (Done tt, w') /\
    bits_ (this w') = Z.ones (Z.of_nat (k + length ops)).
Proof.
  revert w k. induction ops as [|op ops IH]; intros w k Hreach Hbits Hlen Hfit Hal.
  - exists w. cbn. rewrite Nat.add_0_r. auto.
  - apply Forall_cons in Hfit. destruct Hfit as [Hop Hfit].
    destruct op as [T args raw|T ptr]; [|contradiction].
    cbn [fits] in Hop. cbn [allowed_run] in Hal. destruct Hal as [[Hpos Hfresh] Hrest].
    cbn [length] in Hlen.
    pose proof (reachable_inv pageSize w Hreach) as Hinv.
    pose proof (hinv_pageSize _ _ (reachable_heap_inv pageSize w Hreach)) as Hps.
    destruct (Allocate_lowest_clear T args raw w (Z.of_nat k)) as (p & w1 & Hrun & Hb).
    + apply (inv_length w Hinv).
    + apply Z.ltb_ge. rewrite Hps. exact Hop.
    + lia.
    + apply first_clear_lowest; [lia| |].
      * rewrite Hbits. apply Z.ones_spec_high. lia.
      * intros i Hi. rewrite Hbits. apply Z.ones_spec_low. lia.
    + assert (Hex : exec (OpAllocate T args raw) w = (Done tt, w1)).
      { cbn. rewrite bind_unfold, Hrun. reflexivity. }
      rewrite Hex in Hrest.
      destruct (IH w1 (S k)) as (w' & Hrun' & Hbits').
      * apply (reach_step pageSize w w1 (OpAllocate T args raw) Hreach); [|exact Hex].
        split; assumption.
      * rewrite Hb, Hbits, ones_succ by lia. f_equal. lia.
      * lia.
      * exact Hfit.
      * exact Hrest.
      * exists w'. cbn [run]. rewrite Hex. split; [exact Hrun'|].
        rewrite Hbits'. f_equal. cbn [length]. lia.
Qed.

(** X13: the pool serves 64 objects from its slots and the next from the
    overflow path.  Starting from a fresh pool, [n <= 64] allocations of
    types that fit a page, with no deallocation in between, all return;
    they occupy slots 0 to [n - 1] ([bits_] is [2^n - 1] and each of these
    slots holds a live object); once [n] is 64, any further allocation takes
    the overflow path. *)
Theorem sixty_four_slots_then_overflow (pageSize : Z) (ops : list Op) :
  Forall (fits pageSize) ops ->
  (length ops <= 64)%nat ->
  allowed_run ops (fresh_world pageSize) ->
  exists w',
    run ops (fresh_world pageSize) = (Done tt, w') /\
    bits_ (this w') = Z.ones (Z.of_nat (length ops)) /\
    (forall i : nat, (i < length ops)%nat ->
       exists p, pages_ (this w') !! i = Some p /\ p <> 0 /\ is_Some (objects w' !! p)) /\
    (length ops = 64%nat ->
     forall T args raw,
       took_overflow w' (snd (Allocate T args [] raw w')) = true).
Proof.
  intros Hfit Hlen Hal.
  destruct (fill_from pageSize ops (fresh_world pageSize) 0) as (w' & Hrun & Hbits);
    [apply reach_fresh|reflexivity|lia|exact Hfit|exact Hal|].
  cbn [Nat.add] in Hbits.
  pose proof (run_reachable pageSize ops _ w' (reach_fresh pageSize) Hal Hrun) as Hreach.
  pose proof (reachable_inv pageSize w' Hreach) as Hinv.
  exists w'. split; [exact Hrun|]. split; [exact Hbits|]. split.
  - intros i Hi.
    destruct (lookup_lt_is_Some_2 (pages_ (this w')) i) as [p Hp];
      [rewrite (inv_length w' Hinv); lia|].
    exists p. split; [exact Hp|].
    apply (inv_occupancy w' Hinv i p Hp).
    rewrite Hbits. apply Z.ones_spec_low. lia.
  - intros Hfull T args raw.
    rewrite took_overflow_quiet by apply (inv_length w' Hinv).
    replace (first_clear 64 0 (bits_ (this w'))) with (@None Z); [apply orb_true_r|].
    symmetry. apply first_clear_None. intros i Hi.
    rewrite Hbits, Hfull. apply Z.ones_spec_low. lia.
Qed.

(** ** The further properties at concrete pools *)

Lemma one_point_world_allowed : allowed (OpAllocate Point [3; 4] 4096) (fresh_world 512).
Proof. split; [lia|reflexivity]. Defined.

Lemma one_big_world_run :
  Allocate Big [7] [] 8192 (fresh_world 512) = (Done 8193, one_big_world).
Proof. vm_compute. reflexivity. Defined.

Lemma recycled_world_run :
  Deallocate Point 4097 one_point_world = (Done tt, recycled_world).
Proof. vm_compute. reflexivity. Defined.

Lemma recycled_world_reachable : reachable 512 recycled_world.
Proof.
  apply (reach_step 512 one_point_world recycled_world (OpDeallocate Point 4097)).
  - exact one_point_world_reachable.
  - exact one_point_world_live.
  - exact recycled_world_run.
Defined.


Lemma fill_fits (n : nat) (base : Z) : Forall (fits 512) (fill n base).
Proof.
  revert base. induction n as [|n IH]; intros base; cbn [fill]; constructor.
  - vm_compute. discriminate.
  - apply IH.
Defined.

Lemma fill_allowed : allowed_run (fill 64 4096) (fresh_world 512).
Proof. vm_compute. repeat split. Defined.

Lemma Allocate_first_fit_witness :
  (length (pages_ (this one_point_world)) = 64%nat /\
   sizeof Point <= to_size_t (pageSize_ (this one_point_world)) /\
   Z.testbit (bits_ (this one_point_world)) 1 = false) /\
  served_from_slot 1 one_point_world (Allocate Point [5; 6] [] 8192 one_point_world) /\
  bits_ (this (snd (Allocate Point [5; 6] [] 8192 one_point_world)))
  = Z.lor (bits_ (this one_point_world)) (Z.shiftl 1 1) /\
  took_overflow one_point_world (snd (Allocate Point [5; 6] [] 8192 one_point_world)) = false.
Proof.
  assert (H1 : length (pages_ (this one_point_world)) = 64%nat) by reflexivity.
  assert (H2 : sizeof Point <= to_size_t (pageSize_ (this one_point_world)))
    by (vm_compute; discriminate).
  assert (H3 : 0 < 8192) by lia.
  assert (H4 : 0 <= 1 < 64) by lia.
  assert (H5 : Z.testbit (bits_ (this one_point_world)) 1 = false) by reflexivity.
  assert (H6 : forall k, 0 <= k < 1 -> Z.testbit (bits_ (this one_point_world)) k = true).
  { intros k Hk. assert (k = 0) by lia. subst k. reflexivity. }
  split; [exact (conj H1 (conj H2 H5))|].
  exact (Allocate_first_fit Point [5; 6] 8192 one_point_world 1 H1 H2 H3 H4 H5 H6).
Defined.

Lemma Allocate_returns_unused_address_witness :
  (reachable 512 (fresh_world 512) /\
   allowed (OpAllocate Point [3; 4] 4096) (fresh_world 512) /\
   Allocate Point [3; 4] [] 4096 (fresh_world 512) = (Done 4097, one_point_world)) /\
  4097 <> 0 /\
  objects (fresh_world 512) !! 4097 = None /\
  objects one_point_world
  = <[4097 := {| obj_type := Point; obj_repr := ctor Point [3; 4] |}]>
      (objects (fresh_world 512)) /\
  (forall q, is_Some (objects (fresh_world 512) !! q) ->
     bytes one_point_world !! (q - 1) = bytes (fresh_world 512) !! (q - 1)).
Proof.
  split; [exact (conj (reach_fresh 512) (conj one_point_world_allowed one_point_world_run))|].
  exact (Allocate_returns_unused_address 512 Point [3; 4] 4096 (fresh_world 512)
           one_point_world 4097 (reach_fresh 512) one_point_world_allowed
           one_point_world_run).
Defined.

Lemma overflow_leaves_pool_untouched_witness :
  (reachable 512 (fresh_world 512) /\
   Allocate Big [7] [] 8192 (fresh_world 512) = (Done 8193, one_big_world) /\
   took_overflow (fresh_world 512) one_big_world = true) /\
  this one_big_world = this (fresh_world 512) /\
  (forall i : nat, pages_ (this (fresh_world 512)) !! i <> Some 8193) /\
  bytes one_big_world !! (8193 - 1) = Some extendFlag_ /\
  blocks one_big_world
  = <[8193 - 1 := to_size_t (sizeof Big + pageOffset_)]> (blocks (fresh_world 512)).
Proof.
  assert (H2 : allowed (OpAllocate Big [7] 8192) (fresh_world 512))
    by (split; [lia|reflexivity]).
  assert (H4 : took_overflow (fresh_world 512) one_big_world = true)
    by (vm_compute; reflexivity).
  split; [exact (conj (reach_fresh 512) (conj one_big_world_run H4))|].
  exact (overflow_leaves_pool_untouched 512 Big [7] 8192 (fresh_world 512)
           one_big_world 8193 (reach_fresh 512) H2 one_big_world_run H4).
Defined.

Lemma Allocate_then_Deallocate_witness :
  (reachable 512 (fresh_world 512) /\
   Allocate Point [3; 4] [] 4096 (fresh_world 512) = (Done 4097, one_point_world)) /\
  exists w2,
    Deallocate Point 4097 one_point_world = (Done tt, w2) /\
    bits_ (this w2) = bits_ (this (fresh_world 512)) /\
    objects w2 = objects (fresh_world 512) /\
    (took_overflow (fresh_world 512) one_point_world = true ->
     this w2 = this (fresh_world 512) /\ blocks w2 = blocks (fresh_world 512)) /\
    (took_overflow (fresh_world 512) one_point_world = false ->
     exists j : nat,
       pages_ (this w2) = <[j := 4097]> (pages_ (this (fresh_world 512))) /\
       (pages_ (this (fresh_world 512)) !! j = Some 4097 \/
        pages_ (this (fresh_world 512)) !! j = Some 0) /\
       blocks w2 = blocks one_point_world).
Proof.
  split; [exact (conj (reach_fresh 512) one_point_world_run)|].
  exact (Allocate_then_Deallocate 512 Point [3; 4] 4096 (fresh_world 512)
           one_point_world 4097 (reach_fresh 512) one_point_world_allowed
           one_point_world_run).
Defined.

Lemma destroy_releases_pages_only_witness :
  reachable 512 one_point_world /\
  exists w',
    MemoryPool_destroy one_point_world = (Done tt, w') /\
    (forall (i : nat) (p : Z),
       pages_ (this one_point_world) !! i = Some p -> p <> 0 ->
       blocks w' !! (p - 1) = None) /\
    (forall q,
       is_Some (objects one_point_world !! q) ->
       bytes one_point_world !! (q - 1) = Some extendFlag_ ->
       is_Some (blocks w' !! (q - 1)) /\
       blocks w' !! (q - 1) = blocks one_point_world !! (q - 1)).
Proof.
  split; [exact one_point_world_reachable|].
  exact (destroy_releases_pages_only 512 one_point_world one_point_world_reachable).
Defined.

Lemma no_leak_when_all_deallocated_witness :
  (reachable 512 recycled_world /\ objects recycled_world = ∅) /\
  bits_ (this recycled_world) = 0 /\
  exists w', MemoryPool_destroy recycled_world = (Done tt, w') /\ blocks w' = ∅.
Proof.
  assert (H2 : objects recycled_world = ∅) by (vm_compute; reflexivity).
  split; [exact (conj recycled_world_reachable H2)|].
  exact (no_leak_when_all_deallocated 512 recycled_world recycled_world_reachable H2).
Defined.

Lemma at_most_64_pages_witness :
  reachable 512 one_point_world /\
  malloc_rets (trace one_point_world) ≡ₚ page_bases (pages_ (this one_point_world)) /\
  NoDup (malloc_rets (trace one_point_world)) /\
  (length (malloc_rets (trace one_point_world)) <= 64)%nat.
Proof.
  split; [exact one_point_world_reachable|].
  exact (at_most_64_pages 512 one_point_world one_point_world_reachable).
Defined.

Lemma pages_are_stable_witness :
  (reachable 512 one_point_world /\
   pages_ (this one_point_world) !! 0%nat = Some 4097) /\
  exists w',
    run [OpDeallocate Point 4097; OpAllocate Big [7] 8192] one_point_world = (Done tt, w') /\
    pages_ (this w') !! 0%nat = Some 4097 /\
    is_Some (blocks w' !! (4097 - 1)) /\
    bytes w' !! (4097 - 1) = Some (Z.of_nat 0).
Proof.
  assert (H4 : pages_ (this one_point_world) !! 0%nat = Some 4097) by reflexivity.
  split; [exact (conj one_point_world_reachable H4)|].
  exists (snd (run [OpDeallocate Point 4097; OpAllocate Big [7] 8192] one_point_world)).
  assert (H3 : run [OpDeallocate Point 4097; OpAllocate Big [7] 8192] one_point_world
               = (Done tt,
                  snd (run [OpDeallocate Point 4097; OpAllocate Big [7] 8192]
                         one_point_world)))
    by (vm_compute; reflexivity).
  split; [exact H3|].
  apply (pages_are_stable 512 [OpDeallocate Point 4097; OpAllocate Big [7] 8192]
           one_point_world _ 0%nat 4097 one_point_world_reachable).
  - vm_compute. split; [eexists; reflexivity|repeat split].
  - exact H3.
  - exact H4.
  - lia.
Defined.

Lemma object_fits_its_block_witness :
  (0 <= 512 < 2 ^ 63 /\ 1 <= sizeof Point < 2 ^ 63 /\
   Allocate Point [3; 4] [] 4096 (fresh_world 512) = (Done 4097, one_point_world)) /\
  exists sz, blocks one_point_world !! (4097 - 1) = Some sz /\
             4097 + sizeof Point <= (4097 - 1) + sz.
Proof.
  assert (H1 : 0 <= 512 < 2 ^ 63) by lia.
  assert (H2 : 1 <= sizeof Point < 2 ^ 63) by (cbn; lia).
  split; [exact (conj H1 (conj H2 one_point_world_run))|].
  exact (object_fits_its_block 512 Point [3; 4] 4096 (fresh_world 512) one_point_world
           4097 H1 H2 (reach_fresh 512) one_point_world_allowed one_point_world_run).
Defined.

Lemma Deallocate_keeps_other_objects_witness :
  (reachable 512 one_point_world /\
   Deallocate Point 4097 one_point_world = (Done tt, recycled_world)) /\
  objects recycled_world !! 4097 = None /\
  forall q, q <> 4097 ->
    objects recycled_world !! q = objects one_point_world !! q /\
    bytes recycled_world !! (q - 1) = bytes one_point_world !! (q - 1) /\
    blocks recycled_world !! (q - 1) = blocks one_point_world !! (q - 1).
Proof.
  split; [exact (conj one_point_world_reachable recycled_world_run)|].
  exact (Deallocate_keeps_other_objects 512 Point 4097 one_point_world recycled_world
           one_point_world_reachable one_point_world_live recycled_world_run).
Defined.

Lemma negative_pageSize_disables_size_check_witness :
  (- 2 ^ 63 <= pageSize_ (this (fresh_world (-1))) < 0 /\ sizeof Big < 2 ^ 63) /\
  (took_overflow (fresh_world (-1)) (snd (Allocate Big [7] [] 4096 (fresh_world (-1)))) = true
   <-> forall i, 0 <= i < 64 -> Z.testbit (bits_ (this (fresh_world (-1)))) i = true) /\
  calls_since (fresh_world (-1)) (snd (Allocate Big [7] [] 4096 (fresh_world (-1))))
  = [EvConstruct (4096 + 1) Big [7]; EvMalloc 0 4096].
Proof.
  assert (H1 : - 2 ^ 63 <= pageSize_ (this (fresh_world (-1))) < 0) by (cbn; lia).
  assert (H2 : sizeof Big < 2 ^ 63) by (cbn; lia).
  assert (H3 : length (pages_ (this (fresh_world (-1)))) = 64%nat) by reflexivity.
  split; [exact (conj H1 H2)|].
  destruct (negative_pageSize_disables_size_check Big [7] 4096 (fresh_world (-1)) H1 H2 H3)
    as [Hiff Hcalls].
  split; [exact Hiff|].
  apply Hcalls; [lia|reflexivity|reflexivity].
Defined.


Lemma sixty_four_slots_then_overflow_witness :
  (length (fill 64 4096) <= 64)%nat /\
  exists w',
    run (fill 64 4096) (fresh_world 512) = (Done tt, w') /\
    bits_ (this w') = Z.ones (Z.of_nat (length (fill 64 4096))) /\
    (forall i : nat, (i < length (fill 64 4096))%nat ->
       exists p, pages_ (this w') !! i = Some p /\ p <> 0 /\ is_Some (objects w' !! p)) /\
    (length (fill 64 4096) = 64%nat ->
     forall T args raw,
       took_overflow w' (snd (Allocate T args [] raw w')) = true).
Proof.
  assert (H2 : (length (fill 64 4096) <= 64)%nat) by (vm_compute; lia).
  split; [exact H2|].
  exact (sixty_four_slots_then_overflow 512 (fill 64 4096) (fill_fits 64 4096) H2
           fill_allowed).
Defined.
